(** * Verification of [lab_2_3_LinearRegression.py]

    A shallow embedding of the [LinearRegressor] class ([fit_simple],
    [fit_multiple], [predict]) and of [evaluate_regression], together with
    the NumPy operations they call.

    The arithmetic of the program is that of NumPy's [float64].  The
    embedding is written once, over an interface [Scalar] of the scalar
    operations the source uses, and is instantiated twice:
    - at [R], the exact arithmetic in which the algebraic properties of
      the regression are stated;
    - at the kernel's binary64 [float], where the definitions run and
      rounding and the behaviour of a division by zero can be observed.
    On arrays of integers NumPy computes in [int64]: [evaluate_regression]
    is embedded a second time for them, on integers modulo [2^64]. *)

From Stdlib Require Import String.
From Stdlib Require Import List Bool Arith Lia ZArith.
From Stdlib Require Import Reals Lra Psatz.
From Stdlib Require PrimFloat SpecFloat FloatOps FloatAxioms Uint63.
Import ListNotations.

Set Implicit Arguments.

(* ================================================================= *)
(** ** Scalars *)

(** The operations on numbers that the source performs: [+ - * /],
    [np.sqrt], [abs], the conversion of a length to a float, and the
    exact test against zero by which LAPACK detects a singular matrix. *)
Class Scalar (A : Type) : Type := {
  s_zero : A;
  s_one : A;
  s_add : A -> A -> A;
  s_sub : A -> A -> A;
  s_mul : A -> A -> A;
  s_div : A -> A -> A;
  s_sqrt : A -> A;
  s_abs : A -> A;
  s_of_nat : nat -> A;
  s_is_zero : A -> bool
}.

(** Exact arithmetic.  Division in [R] is total ([x / 0 = 0]), which no
    float does: the statements over [R] are made where the divisors of
    the program are not zero. *)
#[export] Instance R_Scalar : Scalar R := {|
  s_zero := 0%R;
  s_one := 1%R;
  s_add := Rplus;
  s_sub := Rminus;
  s_mul := Rmult;
  s_div := Rdiv;
  s_sqrt := sqrt;
  s_abs := Rabs;
  s_of_nat := INR;
  s_is_zero := fun x => if Req_dec_T x 0%R then true else false
|}.

(** IEEE 754 binary64, NumPy's [float64]. *)
#[export] Instance float_Scalar : Scalar PrimFloat.float := {|
  s_zero := PrimFloat.zero;
  s_one := PrimFloat.one;
  s_add := PrimFloat.add;
  s_sub := PrimFloat.sub;
  s_mul := PrimFloat.mul;
  s_div := PrimFloat.div;
  s_sqrt := PrimFloat.sqrt;
  s_abs := PrimFloat.abs;
  s_of_nat := fun n => PrimFloat.of_uint63 (Uint63.of_Z (Z.of_nat n));
  s_is_zero := PrimFloat.is_zero
|}.


(* ================================================================= *)
(** ** Exceptions *)

(** The Python exceptions the core can raise, with their messages. *)
Inductive exn : Type :=
| ValueError (msg : string)
| LinAlgError (msg : string)
| ZeroDivisionError (msg : string)
| IndexError (msg : string).

Inductive result (X : Type) : Type :=
| Ok (x : X)
| Raise (e : exn).

Arguments Ok {X} x.
Arguments Raise {X} e.

Definition rbind {X Y} (c : result X) (k : X -> result Y) : result Y :=
  match c with
  | Ok x => k x
  | Raise e => Raise e
  end.

Definition not_fitted : exn := ValueError "Model is not yet fitted"%string.
Definition shape_error : exn := ValueError "shapes not aligned"%string.
Definition matmul_error : exn :=
  ValueError "matmul: Input operand 1 has a mismatch in its core dimension 0"%string.
Definition index_error : exn := IndexError "index out of bounds"%string.
Definition broadcast_error : exn :=
  ValueError "operands could not be broadcast together"%string.
Definition concat_error : exn :=
  ValueError "all the input array dimensions except for the concatenation axis must match exactly"%string.
Definition singular_matrix : exn := LinAlgError "Singular matrix"%string.
Definition not_square : exn :=
  LinAlgError "Last 2 dimensions of the array must be square"%string.
Definition division_by_zero : exn := ZeroDivisionError "division by zero"%string.

(* ================================================================= *)
(** ** NumPy arrays and reductions *)

Section NumPy.
Context {A : Type} `{Scalar A}.

(** A 2-D array: its rows, and the number of columns (which the rows
    alone would not give for an array without rows). *)
Record matrix : Type := Matrix { ncols : nat; rows : list (list A) }.

Definition nrows (M : matrix) : nat := length (rows M).

(** Every row of a well-formed 2-D array has [ncols] entries. *)
Definition wf_matrix (M : matrix) : Prop :=
  Forall (fun r => length r = ncols M) (rows M).

(** The arrays the program receives: 1-D or 2-D. *)
Inductive ndarray : Type :=
| Arr1 (v : list A)
| Arr2 (M : matrix).

Definition np_ndim (X : ndarray) : nat :=
  match X with Arr1 _ => 1 | Arr2 _ => 2 end.

(** The elements of an array, in row-major order. *)
Definition flatten (X : ndarray) : list A :=
  match X with
  | Arr1 v => v
  | Arr2 M => concat (rows M)
  end.

(** [X.reshape(1, -1)]: all the elements as the single row of a 2-D
    array. *)
Definition reshape_1_m1 (X : ndarray) : ndarray :=
  let v := flatten X in Arr2 (Matrix (length v) [v]).

(** The unrolled loop of NumPy's pairwise summation: eight partial
    sums [r0 .. r7], to which the elements are added eight at a time;
    when fewer than eight are left the partial sums are added in pairs
    and the remaining elements one by one. *)
Fixpoint unrolled_sum (r0 r1 r2 r3 r4 r5 r6 r7 : A) (l : list A) : A :=
  match l with
  | a0 :: a1 :: a2 :: a3 :: a4 :: a5 :: a6 :: a7 :: l' =>
      unrolled_sum (s_add r0 a0) (s_add r1 a1) (s_add r2 a2) (s_add r3 a3)
                   (s_add r4 a4) (s_add r5 a5) (s_add r6 a6) (s_add r7 a7) l'
  | _ =>
      fold_left s_add l
        (s_add (s_add (s_add r0 r1) (s_add r2 r3))
               (s_add (s_add r4 r5) (s_add r6 r7)))
  end.

(** The size of the blocks that the unrolled loop sums ([PW_BLOCKSIZE]). *)
Definition pw_blocksize : nat := 128.

(** NumPy's pairwise summation of a contiguous array of [n] elements:
    below eight elements the plain loop from left to right; up to
    [pw_blocksize] elements the unrolled loop; above, the sum of the
    two halves, the first of [n / 2] elements rounded down to a
    multiple of eight.  The recursion is on [fuel]; the length of the
    array is enough of it ([pairwise_sum_fuel] below).
    (NumPy starts the plain loop from [-0.0] and adds the result to the
    identity [0.0] of the reduction: in binary64 that is the value of
    the loop started from [0.0].) *)
Fixpoint pairwise_sum (fuel : nat) (l : list A) : A :=
  let n := length l in
  if n <? 8 then fold_left s_add l s_zero
  else if n <=? pw_blocksize then
    match l with
    | a0 :: a1 :: a2 :: a3 :: a4 :: a5 :: a6 :: a7 :: l' =>
        unrolled_sum a0 a1 a2 a3 a4 a5 a6 a7 l'
    | _ => fold_left s_add l s_zero
    end
  else
    match fuel with
    | O => fold_left s_add l s_zero
    | S fuel' =>
        let n2 := n / 2 - (n / 2) mod 8 in
        s_add (pairwise_sum fuel' (firstn n2 l))
              (pairwise_sum fuel' (skipn n2 l))
    end.

(** [np.sum] of a 1-D array: [np.add.reduce], which adds the pairwise
    sum of the elements to its identity, zero. *)
Definition np_sum (v : list A) : A :=
  s_add s_zero (pairwise_sum (length v) v).

(** [np.mean] of a 1-D array: the sum divided by the count. *)
Definition np_mean (v : list A) : A :=
  s_div (np_sum v) (s_of_nat (length v)).

(** [np.var(_, ddof=0)] of a 1-D array: the deviations from the mean,
    multiplied by themselves, summed, divided by the count. *)
Definition np_var (v : list A) : A :=
  let m := np_mean v in
  let d := map (fun x => s_sub x m) v in
  s_div (np_sum (map (fun x => s_mul x x) d)) (s_of_nat (length v)).

(** Without an axis, [np.mean] and [np.var] reduce over all elements. *)
Definition np_mean_all (X : ndarray) : A := np_mean (flatten X).
Definition np_var_all (X : ndarray) : A := np_var (flatten X).

(** The inner product of two rows, which NumPy leaves to BLAS: the
    products are added from left to right, starting from zero.  (The
    order in which a BLAS library adds them is its own; in exact
    arithmetic every order gives this sum.) *)
Definition dot (u v : list A) : A :=
  fold_left s_add (map (fun p => s_mul (fst p) (snd p)) (combine u v)) s_zero.

(** The rows of the 2-D view [np.array(m, ndmin=2)]. *)
Definition rows_ndmin2 (X : ndarray) : list (list A) :=
  match X with
  | Arr1 v => [v]
  | Arr2 M => rows M
  end.

(** [np.cov(m, y, ddof=0)]: an [m] without rows gives the empty
    matrix; otherwise [y] is stacked under the rows of [m] (all of one
    length, else the concatenation fails), every row is centred on its
    mean, and the products of the centred rows are scaled by [1 / fact],
    where [fact] is the number of observations. *)
Definition np_cov (m : ndarray) (y : list A) : result (list (list A)) :=
  let n := length y in
  match rows_ndmin2 m with
  | [] => Ok []
  | _ :: _ =>
      if forallb (fun r => length r =? n) (rows_ndmin2 m) then
        let X := rows_ndmin2 m ++ [y] in
        let Xc := map (fun r => let avg := np_mean r in
                                map (fun x => s_sub x avg) r) X in
        let f := s_div s_one (s_of_nat n) in
        Ok (map (fun r => map (fun r' => s_mul (dot r r') f) Xc) Xc)
      else Raise concat_error
  end.

(** [c[i, j]] on a 2-D result. *)
Definition getitem2 (c : list (list A)) (i j : nat) : result A :=
  match nth_error c i with
  | Some r => match nth_error r j with
              | Some x => Ok x
              | None => Raise index_error
              end
  | None => Raise index_error
  end.

(** Element-wise binary operation on two 1-D arrays, with NumPy's
    broadcasting: equal lengths, or one of the two of length one. *)
Definition broadcast2 (f : A -> A -> A) (u v : list A) : result (list A) :=
  if length u =? length v then Ok (map (fun p => f (fst p) (snd p)) (combine u v))
  else match u, v with
       | [a], _ => Ok (map (fun x => f a x) v)
       | _, [b] => Ok (map (fun x => f x b) u)
       | _, _ => Raise broadcast_error
       end.

(** [np.transpose]. *)
Definition transpose (M : matrix) : matrix :=
  Matrix (nrows M)
    (map (fun j => map (fun r => nth j r s_zero) (rows M)) (seq 0 (ncols M))).

(** [M @ N] for 2-D arrays: the inner dimensions must agree. *)
Definition matmul (M N : matrix) : result matrix :=
  if ncols M =? nrows N then
    Ok (Matrix (ncols N)
          (map (fun r => map (fun c => dot r c) (rows (transpose N))) (rows M)))
  else Raise matmul_error.

(** [M @ y] for a 2-D array and a 1-D array. *)
Definition matvec (M : matrix) (y : list A) : result (list A) :=
  if ncols M =? length y then Ok (map (fun r => dot r y) (rows M))
  else Raise matmul_error.

(** [M.dot(v)] for a 2-D array and a 1-D array: the product of each row
    with [v]. *)
Definition ndarray_dot (M : matrix) (v : list A) : result (list A) :=
  if ncols M =? length v then Ok (map (fun r => dot r v) (rows M))
  else Raise shape_error.

(** [np.c_[np.ones(X.shape[0]), X]]: a column of ones before the
    columns of [X]; a 1-D [X] counts as one column. *)
Definition c_ones (X : ndarray) : matrix :=
  match X with
  | Arr1 v => Matrix 2 (map (fun x => [s_one; x]) v)
  | Arr2 M => Matrix (S (ncols M)) (map (fun r => s_one :: r) (rows M))
  end.

(* --------------------------------------------------------------- *)
(** *** [np.linalg.inv] *)

(** Row [i] of the identity matrix of order [n]. *)
Definition unit_row (n i : nat) : list A :=
  map (fun j => if j =? i then s_one else s_zero) (seq 0 n).

(** A row of the augmented matrix [[M | N]]: its part in [M] and its
    part in [N]. *)
Definition aug_row : Type := (list A * list A)%type.

(** The first row of [todo] whose entry in column [k] is not zero,
    with the other rows. *)
Fixpoint find_pivot (k : nat) (todo : list aug_row)
  : option (aug_row * list aug_row) :=
  match todo with
  | [] => None
  | w :: t =>
      if s_is_zero (nth k (fst w) s_zero) then
        match find_pivot k t with
        | Some (r, rest) => Some (r, w :: rest)
        | None => None
        end
      else Some (w, t)
  end.

(** [w / p] and [w - f * r], entry by entry. *)
Definition row_scale (p : A) (w : list A) : list A :=
  map (fun x => s_div x p) w.

Definition row_axpy (f : A) (r w : list A) : list A :=
  map (fun q => s_sub (fst q) (s_mul f (snd q))) (combine w r).

(** Divides the pivot row by its entry in column [k]. *)
Definition normalise (k : nat) (r : aug_row) : aug_row :=
  let p := nth k (fst r) s_zero in
  (row_scale p (fst r), row_scale p (snd r)).

(** Clears column [k] of [w] with the normalised pivot row [r]. *)
Definition eliminate (k : nat) (r w : aug_row) : aug_row :=
  let f := nth k (fst w) s_zero in
  (row_axpy f (fst r) (fst w), row_axpy f (snd r) (snd w)).

(** Gauss-Jordan elimination over the columns [cols]: [done] holds the
    pivot rows found so far, in order, [todo] the rows not yet used as
    a pivot.  A column without a pivot ends the elimination. *)
Fixpoint gauss_jordan (cols : list nat) (done todo : list aug_row)
  : option (list aug_row) :=
  match cols with
  | [] => Some done
  | k :: cols' =>
      match find_pivot k todo with
      | None => None
      | Some (r, rest) =>
          let r' := normalise k r in
          gauss_jordan cols'
            (map (eliminate k r') done ++ [r'])
            (map (eliminate k r') rest)
      end
  end.

(** The identity matrix of order [n]. *)
Definition identity (n : nat) : matrix :=
  Matrix n (map (unit_row n) (seq 0 n)).

(** The rows of [[M | I]]. *)
Definition augment (M : matrix) : list aug_row :=
  combine (rows M) (rows (identity (nrows M))).

(** [np.linalg.inv]: the matrix must be square; elimination on
    [[M | I]] either meets a column without a pivot (the matrix is
    singular) or ends on [[I | inverse]].  LAPACK factorises with
    pivots on the largest entry of the column and raises when a pivot
    is exactly zero; over exact arithmetic the choice of a nonzero pivot
    changes neither the result nor whether there is one, and it is over
    exact arithmetic that this definition stands for LAPACK.  In
    binary64 it is not LAPACK's computation: the statements made for
    every scalar type use of it only that it raises, or returns a
    square matrix of the order of its argument. *)
Definition linalg_inv (M : matrix) : result matrix :=
  if nrows M =? ncols M then
    match gauss_jordan (seq 0 (nrows M)) [] (augment M) with
    | Some done => Ok (Matrix (nrows M) (map snd done))
    | None => Raise singular_matrix
    end
  else Raise not_square.

End NumPy.

Arguments matrix A : clear implicits.
Arguments aug_row A : clear implicits.
Arguments ndarray A : clear implicits.

(* ================================================================= *)
(** ** The regressor *)

Declare Scope py_scope.
Delimit Scope py_scope with py.

Notation "x <- c ;; k" := (rbind c (fun x => k))
  (at level 61, c at next level, right associativity) : py_scope.

Section Regressor.
Context {A : Type} `{Scalar A}.

(** [self.coefficients] holds a NumPy scalar after [fit_simple] and a
    1-D array after [fit_multiple]. *)
Inductive coef : Type :=
| CScalar (k : A)
| CArray (v : list A).

(** The attributes of a [LinearRegressor]; [None] is Python's [None]. *)
Record LinearRegressor : Type := {
  coefficients : option coef;
  intercept : option A
}.

(** [__init__]: both attributes start as [None]. *)
Definition LinearRegressor_init : LinearRegressor :=
  {| coefficients := None; intercept := None |}.

(** A method body: it starts from the object, and ends with a value or
    an exception, and with the object as the assignments made before
    that point left it. *)
Definition method (X : Type) : Type :=
  LinearRegressor -> result X * LinearRegressor.

Definition mret {X} (x : X) : method X := fun self => (Ok x, self).

Definition mbind {X Y} (c : method X) (k : X -> method Y) : method Y :=
  fun self =>
    match c self with
    | (Ok x, self') => k x self'
    | (Raise e, self') => (Raise e, self')
    end.

(** A NumPy call: it does not touch the object. *)
Definition call {X} (c : result X) : method X := fun self => (c, self).

(** [self.coefficients = c] and [self.intercept = i]. *)
Definition set_coefficients (c : coef) : method unit :=
  fun self => (Ok tt, {| coefficients := Some c; intercept := intercept self |}).

Definition set_intercept (i : A) : method unit :=
  fun self => (Ok tt, {| coefficients := coefficients self; intercept := Some i |}).

Local Notation "x <~ c ;; k" := (mbind c (fun x => k))
  (at level 61, c at next level, right associativity).
Local Notation "c ;;; k" := (mbind c (fun _ => k))
  (at level 61, right associativity).

(** [w[0]] on a 1-D array. *)
Definition getitem0 (w : list A) : result A :=
  match w with
  | x :: _ => Ok x
  | [] => Raise index_error
  end.

(** [fit_simple], lines 36-41.  An [X] of more than one dimension is
    reshaped to one row; the coefficient is assigned first, then the
    intercept, computed from the coefficient just assigned. *)
Definition fit_simple (X : ndarray A) (y : list A) : method unit :=
  let X := if 1 <? np_ndim X then reshape_1_m1 X else X in
  c <~ call (np_cov X y) ;;
  c10 <~ call (getitem2 c 1 0) ;;
  let k := s_div c10 (np_var_all X) in
  set_coefficients (CScalar k) ;;;
  set_intercept (s_sub (np_mean y) (s_mul k (np_mean_all X))).

(** [fit_multiple], lines 59-62. *)
Definition fit_multiple (X : ndarray A) (y : list A) : method unit :=
  let X := c_ones X in
  XtX <~ call (matmul (transpose X) X) ;;
  B <~ call (linalg_inv XtX) ;;
  BXt <~ call (matmul B (transpose X)) ;;
  w <~ call (matvec BXt y) ;;
  w0 <~ call (getitem0 w) ;;
  set_intercept w0 ;;;
  set_coefficients (CArray (tl w)).

(** [predict], lines 77-86.  [coefficients * X] broadcasts; [X.dot] of
    a 2-D array with a 1-D array is the product of each row, and with
    a scalar the element-wise product. *)
Definition predict (self : LinearRegressor) (X : ndarray A)
  : result (ndarray A) :=
  match coefficients self, intercept self with
  | Some c, Some i =>
      match X, c with
      | Arr1 x, CScalar k =>
          Ok (Arr1 (map (fun xi => s_add i (s_mul k xi)) x))
      | Arr1 x, CArray cs =>
          (p <- broadcast2 s_mul cs x ;;
           Ok (Arr1 (map (s_add i) p)))%py
      | Arr2 M, CScalar k =>
          Ok (Arr2 (Matrix (ncols M)
                      (map (map (fun xi => s_add i (s_mul xi k))) (rows M))))
      | Arr2 M, CArray cs =>
          (d <- ndarray_dot M cs ;;
           Ok (Arr1 (map (s_add i) d)))%py
      end
  | _, _ => Raise not_fitted
  end.

(** Python's [1 / n] on integers: the quotient as a float, or
    [ZeroDivisionError]. *)
Definition py_inv_len (n : nat) : result A :=
  match n with
  | O => Raise division_by_zero
  | S _ => Ok (s_div s_one (s_of_nat n))
  end.

(** [v**2] and [np.power(v, 2)] on an array of floats: every element
    times itself.  (On an [int64] array the product is taken modulo
    [2^64]: see [evaluate_regression_int64].) *)
Definition square (v : list A) : list A := map (fun x => s_mul x x) v.

(** Line 101, [np.sum((y_true - y_pred)**2)], and line 102,
    [np.sum((y_true - np.mean(y_true))**2)]. *)
Definition rss (y_true y_pred : list A) : result A :=
  (d <- broadcast2 s_sub y_true y_pred ;; Ok (np_sum (square d)))%py.

Definition tss (y_true : list A) : A :=
  let m := np_mean y_true in
  np_sum (square (map (fun x => s_sub x m) y_true)).

(** [evaluate_regression], lines 101-112.  The dictionary is the list
    of its items, in insertion order. *)
Definition evaluate_regression (y_true y_pred : list A)
  : result (list (string * A)) :=
  (rss_ <- rss y_true y_pred ;;
   let tss_ := tss y_true in
   let r_squared := s_sub s_one (s_div rss_ tss_) in
   d <- broadcast2 s_sub y_true y_pred ;;
   let rmse := s_sqrt (s_div (np_sum (square d)) (s_of_nat (length y_true))) in
   f <- py_inv_len (length y_true) ;;
   d' <- broadcast2 s_sub y_true y_pred ;;
   let mae := s_mul f (np_sum (map s_abs d')) in
   Ok [("R2"%string, r_squared); ("RMSE"%string, rmse); ("MAE"%string, mae)])%py.

End Regressor.

Arguments coef A : clear implicits.
Arguments LinearRegressor A : clear implicits.
Arguments method A X : clear implicits.

(* ================================================================= *)
(** ** The quantities of the specification, over the reals *)

Module Spec.
Local Open Scope R_scope.

(** The sum of the elements of a list. *)
Definition Sigma (v : list R) : R := fold_right Rplus 0 v.

Definition mean (v : list R) : R := Sigma v / INR (length v).

(** Population covariance and variance: the denominator is [n]. *)
Definition Cov (X y : list R) : R :=
  Sigma (map (fun p => (fst p - mean X) * (snd p - mean y)) (combine X y))
  / INR (length X).

Definition Var (X : list R) : R :=
  Sigma (map (fun x => (x - mean X) ^ 2) X) / INR (length X).

(** Residual and total sums of squares, and the three metrics. *)
Definition RSS (y_true y_pred : list R) : R :=
  Sigma (map (fun p => (fst p - snd p) ^ 2) (combine y_true y_pred)).

Definition TSS (y_true : list R) : R :=
  Sigma (map (fun t => (t - mean y_true) ^ 2) y_true).

Definition R2 (y_true y_pred : list R) : R :=
  1 - RSS y_true y_pred / TSS y_true.

Definition RMSE (y_true y_pred : list R) : R :=
  sqrt (RSS y_true y_pred / INR (length y_true)).

Definition MAE (y_true y_pred : list R) : R :=
  1 / INR (length y_true)
  * Sigma (map (fun p => Rabs (fst p - snd p)) (combine y_true y_pred)).

(** [B] is the inverse of the square matrix [G]. *)
Definition is_inverse (G B : matrix R) : Prop :=
  nrows G = ncols G /\ wf_matrix G /\
  nrows B = nrows G /\ ncols B = nrows G /\ wf_matrix B /\
  matmul G B = Ok (identity (nrows G)) /\
  matmul B G = Ok (identity (nrows G)).

(** The columns of [G] are linearly dependent: a nonzero vector is
    orthogonal to every row. *)
Definition rank_deficient (G : matrix R) : Prop :=
  exists v, length v = ncols G /\ (exists c, nth c v 0 <> 0) /\
            forall g, In g (rows G) -> dot g v = 0.

(** The product of a matrix and a vector, entry [i] being
    [sum_j M[i][j] * v[j]]. *)
Definition mat_vec (M : list (list R)) (v : list R) : list R :=
  map (fun r => Sigma (map (fun p => fst p * snd p) (combine r v))) M.

(** The solution of the normal equations, [w = B (X'^T y)], for [B]
    the inverse of [X'^T X'] and [Xt] the rows of [X'^T]. *)
Definition normal_solution (B Xt : list (list R)) (y : list R) : list R :=
  mat_vec B (mat_vec Xt y).

End Spec.

(* ================================================================= *)
(** ** Shapes and outcomes used in the statements *)

Section Shapes.
Context {A : Type} `{Scalar A}.

(** The [n]-by-1 and the 1-by-[n] array holding the values [xs]. *)
Definition column_array (xs : list A) : matrix A :=
  Matrix 1 (map (fun x => [x]) xs).

Definition row_array (xs : list A) : matrix A :=
  Matrix (length xs) [xs].

(** The value line 40 computes for 1-D arrays of one length:
    [np.cov(X, y, ddof=0)[1, 0] / np.var(X, ddof=0)]. *)
Definition line40 (xs y : list A) : A :=
  let yc := map (fun v => s_sub v (np_mean y)) y in
  let xc := map (fun v => s_sub v (np_mean xs)) xs in
  s_div (s_mul (dot yc xc) (s_div s_one (s_of_nat (length y)))) (np_var xs).

(** Both attributes are set. *)
Definition fitted (self : LinearRegressor A) : Prop :=
  coefficients self <> None /\ intercept self <> None.

(** What a fit call may do to the object [self]: raise and leave it as
    it was, or return and leave it with both attributes set. *)
Definition all_or_nothing (self : LinearRegressor A)
           (out : result unit * LinearRegressor A) : Prop :=
  match out with
  | (Raise _, self') => self' = self
  | (Ok _, self') => fitted self'
  end.

End Shapes.

Section Shift.
Context {A : Type} `{Scalar A}.

(** [v + c] for an array [v] and a scalar [c]. *)
Definition add_scalar (c : A) (v : list A) : list A :=
  map (fun x => s_add x c) v.

(** The values of [v] are not all the same. *)
Definition non_constant (v : list A) : Prop :=
  exists a b, In a v /\ In b v /\ a <> b.
End Shift.

(** What elimination maintains on the rows of [[M | N]], over [R]. *)
Section Elimination.

Definition delta (j c : nat) : R := if j =? c then 1%R else 0%R.

(** The first [length done] columns of the left parts are those of the
    identity: row [j] of [done] has its one in column [j], and the rows
    of [todo] have zeros there.  Every left part has [n] entries. *)
Definition echelon (n : nat) (done todo : list (aug_row R)) : Prop :=
  (forall w, In w done \/ In w todo -> length (fst w) = n) /\
  (forall j c, j < length done -> c < length done ->
               nth c (fst (nth j done ([], []))) 0%R = delta j c) /\
  (forall w c, In w todo -> c < length done -> nth c (fst w) 0%R = 0%R).

(** The right part of the row is its left part times the matrix whose
    columns are [C]. *)
Definition tracks (C : list (list R)) (w : aug_row R) : Prop :=
  snd w = map (dot (fst w)) C.

(** The left part of every row is orthogonal to [v]. *)
Definition annihilates (v : list R) (l : list (aug_row R)) : Prop :=
  forall w, In w l -> dot (fst w) v = 0%R.

(** The vector that shows column [k] to depend on the columns before
    it: [-done[c][k]] for [c < k], one at [k], zero after. *)
Definition dependency (n : nat) (done : list (aug_row R)) : list R :=
  let k := length done in
  map (fun c => if c <? k
                then Ropp (nth k (fst (nth c done ([], []))) 0%R)
                else if c =? k then 1%R else 0%R)
      (seq 0 n).
End Elimination.

(* ================================================================= *)
(** ** Shapes and outcomes of calls *)

Section Outcomes.
Context {A : Type} `{Scalar A}.

(** [X.shape], and [X.shape[0]]. *)
Definition np_shape (X : ndarray A) : list nat :=
  match X with
  | Arr1 v => [length v]
  | Arr2 M => [nrows M; ncols M]
  end.

Definition np_len (X : ndarray A) : nat :=
  match X with
  | Arr1 v => length v
  | Arr2 M => nrows M
  end.

(** Two lengths that NumPy broadcasts together. *)
Definition broadcastable (n m : nat) : bool :=
  (n =? m) || (n =? 1) || (m =? 1).

(** Two calls end alike: with the same exception, or with the same
    value and the same object. *)
Definition same_outcome {X} (a b : result X * LinearRegressor A) : Prop :=
  match a, b with
  | (Ok x, s), (Ok x', s') => x = x' /\ s = s'
  | (Raise e, _), (Raise e', _) => e = e'
  | _, _ => False
  end.

(** [intercept + coefficients * x] when both arrays have one length:
    entry by entry. *)
Definition entrywise (i : A) (cs x : list A) : list A :=
  map (fun p => s_add i (s_mul (fst p) (snd p))) (combine cs x).

End Outcomes.

(* ================================================================= *)
(** ** [anscombe_quartet] *)

(** What a statement of [anscombe_quartet] can raise: an exception of
    the core, or the [KeyError] of a dictionary. *)
Inductive raised : Type :=
| Raised (e : exn)
| KeyError (key : string).

Inductive outcome (X : Type) : Type :=
| Returns (x : X)
| Raises (r : raised).

Arguments Returns {X} x.
Arguments Raises {X} r.

Definition obind {X Y} (c : outcome X) (k : X -> outcome Y) : outcome Y :=
  match c with
  | Returns x => k x
  | Raises r => Raises r
  end.

Definition of_result {X} (c : result X) : outcome X :=
  match c with
  | Ok x => Returns x
  | Raise e => Raises (Raised e)
  end.

Notation "x <-- c ;; k" := (obind c (fun x => k))
  (at level 61, c at next level, right associativity) : py_scope.

Section Dict.
Context {V : Type}.

(** [d[k]] and [d[k] = v] on a dictionary, the list of its items in
    insertion order: a key already present keeps its place. *)
Fixpoint dict_get (d : list (string * V)) (k : string) : outcome V :=
  match d with
  | [] => Raises (KeyError k)
  | (k', v) :: d' => if String.eqb k' k then Returns v else dict_get d' k
  end.

Fixpoint dict_set (d : list (string * V)) (k : string) (v : V)
  : list (string * V) :=
  match d with
  | [] => [(k, v)]
  | (k', v') :: d' =>
      if String.eqb k' k then (k', v) :: d' else (k', v') :: dict_set d' k v
  end.

End Dict.

Section Anscombe.
Context {A : Type} `{Scalar A}.

(** A row of the data frame: its columns [dataset], [x] and [y]. *)
Record observation : Type :=
  Observation { dataset : string; obs_x : A; obs_y : A }.

(** [Series.unique()]: the values, in the order of their first
    appearance. *)
Fixpoint unique (l : list string) : list string :=
  match l with
  | [] => []
  | s :: t => s :: filter (fun u => negb (String.eqb u s)) (unique t)
  end.

(** [anscombe[anscombe['dataset'] == dataset]]. *)
Definition select (anscombe : list observation) (d : string)
  : list observation :=
  filter (fun r => String.eqb (dataset r) d) anscombe.

(** A list of fallible computations, in order. *)
Fixpoint sequence {X} (l : list (result X)) : result (list X) :=
  match l with
  | [] => Ok []
  | c :: l' => (x <- c ;; xs <- sequence l' ;; Ok (x :: xs))%py
  end.

(** [y_true - y_pred] for a 1-D [y_true] and any [y_pred], its entries
    in row-major order. *)
Definition nd_sub (y : list A) (P : ndarray A) : result (list A) :=
  match P with
  | Arr1 p => broadcast2 s_sub y p
  | Arr2 M =>
      if broadcastable (length y) (ncols M) then
        (rs <- sequence (map (broadcast2 s_sub y) (rows M)) ;; Ok (concat rs))%py
      else Raise broadcast_error
  end.

(** [evaluate_regression] as [anscombe_quartet] calls it, on the array
    that [predict] returned. *)
Definition evaluate_regression_nd (y_true : list A) (y_pred : ndarray A)
  : result (list (string * A)) :=
  (d0 <- nd_sub y_true y_pred ;;
   let rss_ := np_sum (square d0) in
   let tss_ := tss y_true in
   let r_squared := s_sub s_one (s_div rss_ tss_) in
   d <- nd_sub y_true y_pred ;;
   let rmse := s_sqrt (s_div (np_sum (square d)) (s_of_nat (length y_true))) in
   f <- py_inv_len (length y_true) ;;
   d' <- nd_sub y_true y_pred ;;
   let mae := s_mul f (np_sum (map s_abs d')) in
   Ok [("R2"%string, r_squared); ("RMSE"%string, rmse); ("MAE"%string, mae)])%py.

(** [results[key].append(metrics[key])]. *)
Definition append_metric (results : list (string * list A))
           (metrics : list (string * A)) (key : string)
  : outcome (list (string * list A)) :=
  (l <-- dict_get results key ;;
   v <-- dict_get metrics key ;;
   Returns (dict_set results key (l ++ [v])))%py.

(** The body of the loop, lines 157-188, on the dictionaries [models]
    and [results] (the two [print]s read [model.coefficients],
    [model.intercept] and the three metrics, and change nothing). *)
Definition quartet_body (anscombe : list observation)
           (models : list (string * LinearRegressor A))
           (results : list (string * list A)) (d : string)
  : outcome (list (string * LinearRegressor A) * list (string * list A)) :=
  let data := select anscombe d in
  let X := map obs_x data in
  let y := map obs_y data in
  match fit_simple (Arr1 X) y LinearRegressor_init with
  | (Raise e, _) => Raises (Raised e)
  | (Ok _, model) =>
      (y_pred <-- of_result (predict model (Arr1 X)) ;;
       let models := dict_set models d model in
       metrics <-- of_result (evaluate_regression_nd y y_pred) ;;
       _ <-- dict_get metrics "R2" ;;
       _ <-- dict_get metrics "RMSE" ;;
       _ <-- dict_get metrics "MAE" ;;
       results <-- append_metric results metrics "R2" ;;
       results <-- append_metric results metrics "RMSE" ;;
       results <-- append_metric results metrics "MAE" ;;
       Returns (models, results))%py
  end.

Fixpoint quartet_loop (anscombe : list observation) (datasets : list string)
         (models : list (string * LinearRegressor A))
         (results : list (string * list A))
  : outcome (list (string * LinearRegressor A) * list (string * list A)) :=
  match datasets with
  | [] => Returns (models, results)
  | d :: ds =>
      (st <-- quartet_body anscombe models results d ;;
       quartet_loop anscombe ds (fst st) (snd st))%py
  end.

(** [anscombe_quartet], lines 145-189, on the data frame that
    [sns.load_dataset("anscombe")] returned. *)
Definition anscombe_quartet (anscombe : list observation)
  : outcome (list observation * list string
             * list (string * LinearRegressor A) * list (string * list A)) :=
  let datasets := unique (map dataset anscombe) in
  (st <-- quartet_loop anscombe datasets []
            [("R2"%string, []); ("RMSE"%string, []); ("MAE"%string, [])] ;;
   Returns (anscombe, datasets, fst st, snd st))%py.

(** The model and the metrics that the loop computes for one data set. *)
Definition model_of (anscombe : list observation) (d : string)
  : LinearRegressor A :=
  let data := select anscombe d in
  let X := map obs_x data in
  let y := map obs_y data in
  {| coefficients := Some (CScalar (line40 X y));
     intercept := Some (s_sub (np_mean y) (s_mul (line40 X y) (np_mean X))) |}.

(** The metrics that the loop computes for one data set, and the one
    it appends to [results[key]]. *)
Definition metrics_of (anscombe : list observation) (d : string)
  : result (list (string * A)) :=
  let data := select anscombe d in
  let X := map obs_x data in
  let y := map obs_y data in
  (y_pred <- predict (model_of anscombe d) (Arr1 X) ;;
   evaluate_regression_nd y y_pred)%py.

Definition metric_of (anscombe : list observation) (key d : string) : A :=
  match metrics_of anscombe d with
  | Ok m => match dict_get m key with
            | Returns v => v
            | Raises _ => s_zero
            end
  | Raise _ => s_zero
  end.

End Anscombe.

Arguments observation A : clear implicits.

(* ================================================================= *)
(** ** Arrays of integers *)

(** An array made of Python integers has the dtype [int64]: NumPy
    subtracts, multiplies and sums its elements modulo [2^64], without
    a warning.  [fit_simple], [fit_multiple] and [predict] turn integer
    data into [float64] before they compute on it ([np.cov], [np.var],
    [np.mean], [np.c_] with [np.ones], the products with the float
    attributes); [evaluate_regression] computes on the integers. *)
Module Int64.

(** The representative of [z] modulo [2^64] between [-2^63] and
    [2^63 - 1]. *)
Definition wrap (z : Z) : Z := ((z + 2 ^ 63) mod 2 ^ 64 - 2 ^ 63)%Z.

Definition in_range (z : Z) : Prop := (- 2 ^ 63 <= z < 2 ^ 63)%Z.

Definition add (a b : Z) : Z := wrap (a + b).
Definition sub (a b : Z) : Z := wrap (a - b).
Definition mul (a b : Z) : Z := wrap (a * b).
Definition abs (a : Z) : Z := wrap (Z.abs a).

(** [np.sum] of an [int64] array (modulo [2^64] the order of the
    additions does not matter). *)
Definition sum (v : list Z) : Z := fold_left add v 0%Z.

(** The conversion of an [int64] to [float64], rounding to nearest. *)
Definition to_float (z : Z) : PrimFloat.float :=
  let m := Z.abs z in
  let f := if (m =? 2 ^ 63)%Z
           then PrimFloat.mul PrimFloat.two
                  (PrimFloat.of_uint63 (Uint63.of_Z (2 ^ 62)))
           else PrimFloat.of_uint63 (Uint63.of_Z m) in
  if (z <? 0)%Z then PrimFloat.opp f else f.

(** The residuals of integer data as integers, the sum of their
    squares and the sum of their absolute values. *)
Definition RSS (y_true y_pred : list Z) : Z :=
  fold_right Z.add 0%Z
    (map (fun p => (fst p - snd p) * (fst p - snd p))%Z (combine y_true y_pred)).

Definition SAE (y_true y_pred : list Z) : Z :=
  fold_right Z.add 0%Z
    (map (fun p => Z.abs (fst p - snd p)) (combine y_true y_pred)).

End Int64.

Section IntegerArrays.
Import PrimFloat.

(** The elements that NumPy casts for one call of the summation loop
    when the array has another dtype than the sum. *)
Definition bufsize : nat := 64 * pw_blocksize.

(** [np.add.reduce(v, dtype=float64)] of an [int64] array: the
    elements are cast and summed one buffer at a time, each buffer
    pairwise, the buffers from left to right.  [fuel] bounds the number
    of buffers. *)
Fixpoint buffered_sum (fuel : nat) (acc : float) (l : list float) : float :=
  match fuel, l with
  | _, [] => acc
  | O, _ :: _ => acc
  | S fuel', _ :: _ =>
      buffered_sum fuel'
        (s_add acc (pairwise_sum bufsize (firstn bufsize l)))
        (skipn bufsize l)
  end.

(** [np.mean] of an [int64] array: a [float64]. *)
Definition np_mean_int64 (v : list Z) : float :=
  s_div (buffered_sum (length v) s_zero (map Int64.to_float v))
        (s_of_nat (length v)).

(** Line 102 on an [int64] array: the mean is a [float64], and so are
    the deviations, their squares and the sum. *)
Definition tss_int64 (y_true : list Z) : float :=
  let m := np_mean_int64 y_true in
  np_sum (square (map (fun x => s_sub (Int64.to_float x) m) y_true)).

(** [evaluate_regression], lines 101-112, on two [int64] arrays: the
    residuals, their squares ([**2] and [np.power(_, 2)]), their
    absolute values and the three sums are [int64]; the divisions turn
    their operands into [float64]. *)
Definition evaluate_regression_int64 (y_true y_pred : list Z)
  : result (list (string * float)) :=
  (d0 <- broadcast2 Int64.sub y_true y_pred ;;
   let rss_ := Int64.sum (map (fun x => Int64.mul x x) d0) in
   let tss_ := tss_int64 y_true in
   let r_squared := s_sub s_one (s_div (Int64.to_float rss_) tss_) in
   d <- broadcast2 Int64.sub y_true y_pred ;;
   let rmse :=
     s_sqrt (s_div (Int64.to_float (Int64.sum (map (fun x => Int64.mul x x) d)))
                   (s_of_nat (length y_true))) in
   f <- py_inv_len (length y_true) ;;
   d' <- broadcast2 Int64.sub y_true y_pred ;;
   let mae := s_mul f (Int64.to_float (Int64.sum (map Int64.abs d'))) in
   Ok [("R2"%string, r_squared); ("RMSE"%string, rmse); ("MAE"%string, mae)])%py.

End IntegerArrays.

(* ================================================================= *)
(** ** Properties that hold for every scalar type *)

Section Generic.
Context {A : Type} `{Scalar A}.

Lemma broadcast2_same_length (f : A -> A -> A) (u v : list A) :
  length u = length v ->
  broadcast2 f u v = Ok (map (fun p => f (fst p) (snd p)) (combine u v)).
Proof.
  intros E. unfold broadcast2. now rewrite E, Nat.eqb_refl.
Qed.

Lemma broadcast2_singleton_l (f : A -> A -> A) (a : A) (v : list A) :
  broadcast2 f [a] v = Ok (map (f a) v).
Proof.
  unfold broadcast2. destruct v as [|b [|c v]]; reflexivity.
Qed.

(** C4. [predict] raises the unfitted-model error exactly when the
    coefficients or the intercept are unset, whatever the input. *)
Theorem predict_unfitted_iff (self : LinearRegressor A) (X : ndarray A) :
  predict self X = Raise not_fitted <->
  (coefficients self = None \/ intercept self = None).
Proof.
  destruct self as [[c|] [i|]]; cbn [predict coefficients intercept];
    try (split; [intros _|reflexivity]; auto; fail).
  split; [|intros [E|E]; discriminate E].
  destruct X as [x|M], c as [k|cs]; try discriminate.
  - unfold broadcast2.
    destruct (length cs =? length x); [discriminate|].
    destruct cs as [|a [|b cs]], x as [|x0 [|x1 x]]; discriminate.
  - unfold ndarray_dot. destruct (ncols M =? length cs); discriminate.
Qed.

(** C5. On a fitted regressor, [predict] of a 1-D input with a scalar
    or one-element coefficient is [intercept + coefficient * x] for each
    element; of an [n]-by-[p] input with an array of [p] coefficients it
    is, for each row, the intercept plus the product of the row and the
    coefficients.  In both cases the result is 1-D with one entry per
    observation.  With the scalar coefficient that [fit_simple] stores,
    a 2-D input gives a 2-D result of the same shape, each entry
    [intercept + x * coefficient]. *)
Theorem predict_formula (self : LinearRegressor A) (c : coef A) (i : A) :
  coefficients self = Some c ->
  intercept self = Some i ->
  (forall (k : A) (x : list A),
      c = CScalar k \/ c = CArray [k] ->
      predict self (Arr1 x)
      = Ok (Arr1 (map (fun xi => s_add i (s_mul k xi)) x))) /\
  (forall (cs : list A) (M : matrix A),
      c = CArray cs ->
      length cs = ncols M ->
      predict self (Arr2 M)
      = Ok (Arr1 (map (fun r => s_add i (dot r cs)) (rows M)))) /\
  (forall (k : A) (M : matrix A),
      c = CScalar k ->
      predict self (Arr2 M)
      = Ok (Arr2 (Matrix (ncols M)
                    (map (map (fun xi => s_add i (s_mul xi k))) (rows M))))).
Proof.
  intros Ec Ei. unfold predict. rewrite Ec, Ei. split; [|split].
  - intros k x [-> | ->]; [reflexivity|].
    rewrite broadcast2_singleton_l. cbn [rbind]. now rewrite map_map.
  - intros cs M -> E. unfold ndarray_dot. rewrite E, Nat.eqb_refl.
    cbn [rbind]. now rewrite map_map.
  - intros k M ->. reflexivity.
Qed.

(** C7. A fit call that raises leaves the object as it was, and one
    that returns has assigned both attributes: neither [fit_simple] nor
    [fit_multiple] ever assigns one of the two without the other. *)
Theorem fit_all_or_nothing (X : ndarray A) (y : list A)
        (self : LinearRegressor A) :
  all_or_nothing self (fit_simple X y self) /\
  all_or_nothing self (fit_multiple X y self).
Proof.
  split.
  - unfold fit_simple, mbind, call.
    destruct (np_cov _ y) as [c|]; [|reflexivity].
    destruct (getitem2 c 1 0); cbn; [split; discriminate | reflexivity].
  - unfold fit_multiple, mbind, call.
    destruct (matmul _ _) as [G|]; [|reflexivity].
    destruct (linalg_inv G) as [B|]; [|reflexivity].
    destruct (matmul B _) as [BXt|]; [|reflexivity].
    destruct (matvec BXt y) as [w|]; [|reflexivity].
    destruct (getitem0 w); cbn; [split; discriminate | reflexivity].
Qed.

(** [fit_simple] on 1-D arrays of one length, unfolded. *)
Lemma fit_simple_1d (xs y : list A) (self : LinearRegressor A) :
  length xs = length y ->
  fit_simple (Arr1 xs) y self
  = (Ok tt,
     {| coefficients := Some (CScalar (line40 xs y));
        intercept := Some (s_sub (np_mean y)
                                 (s_mul (line40 xs y) (np_mean xs))) |}).
Proof.
  intros E. unfold fit_simple, mbind, call, np_cov.
  cbn [np_ndim Nat.ltb Nat.leb rows_ndmin2 forallb].
  rewrite E, Nat.eqb_refl. reflexivity.
Qed.

Lemma flatten_column_array (xs : list A) :
  flatten (Arr2 (column_array xs)) = xs.
Proof.
  cbn. induction xs as [|x xs IH]; cbn; [reflexivity | now rewrite IH].
Qed.

Lemma flatten_row_array (xs : list A) :
  flatten (Arr2 (row_array xs)) = xs.
Proof. cbn. apply app_nil_r. Qed.

Lemma fit_simple_flatten (M : matrix A) (y : list A)
      (self : LinearRegressor A) :
  fit_simple (Arr2 M) y self = fit_simple (Arr1 (concat (rows M))) y self.
Proof.
  unfold fit_simple, np_var_all, np_mean_all, np_cov.
  cbn [np_ndim Nat.ltb Nat.leb reshape_1_m1 flatten rows_ndmin2 rows concat].
  now rewrite app_nil_r.
Qed.

(** C10. For a 2-D predictor holding one feature, as [n]-by-1 or as
    1-by-[n], and a response of length [n], [fit_simple] does not raise
    and does exactly what it does on the flattened 1-D predictor. *)
Theorem fit_simple_single_feature_2d (xs y : list A)
        (self : LinearRegressor A) :
  length xs = length y ->
  fit_simple (Arr2 (column_array xs)) y self = fit_simple (Arr1 xs) y self /\
  fit_simple (Arr2 (row_array xs)) y self = fit_simple (Arr1 xs) y self /\
  exists self', fit_simple (Arr1 xs) y self = (Ok tt, self').
Proof.
  intros E. split; [|split].
  - rewrite fit_simple_flatten.
    now rewrite <- (flatten_column_array xs) at 2.
  - rewrite fit_simple_flatten.
    now rewrite <- (flatten_row_array xs) at 2.
  - rewrite fit_simple_1d by exact E. eauto.
Qed.

(** The pairwise summation does not depend on its fuel, once that is
    the length of the array: every half is shorter than the whole. *)
Lemma pairwise_sum_fuel (f f' : nat) :
  forall l : list A,
    length l <= f -> length l <= f' ->
    pairwise_sum f l = pairwise_sum f' l.
Proof.
  revert f'; induction f as [|f IH]; intros [|f'] l L L';
    cbn [pairwise_sum];
    destruct (length l <? 8) eqn:E8; try reflexivity;
    destruct (length l <=? pw_blocksize) eqn:EB; try reflexivity;
    apply Nat.ltb_ge in E8; try lia.
  apply Nat.leb_gt in EB. unfold pw_blocksize in EB.
  pose proof (Nat.div_mod_eq (length l) 2) as D2.
  pose proof (Nat.mod_upper_bound (length l) 2) as M2.
  pose proof (Nat.div_mod_eq (length l / 2) 8) as D8.
  pose proof (Nat.mod_upper_bound (length l / 2) 8) as M8.
  f_equal; apply IH; rewrite ?length_firstn, ?length_skipn; lia.
Qed.

End Generic.

(* ================================================================= *)
(** ** Exact arithmetic: the embedding at [R] *)


Module Exact.
Local Open Scope R_scope.

Ltac unfold_scalar :=
  cbn [s_zero s_one s_add s_sub s_mul s_div s_sqrt s_abs s_of_nat R_Scalar] in *.

Lemma fold_left_Rplus (v : list R) (a : R) :
  fold_left Rplus v a = a + Spec.Sigma v.
Proof.
  unfold Spec.Sigma.
  revert a; induction v as [|x v IH]; intros a; cbn [fold_left fold_right].
  - ring.
  - rewrite IH. ring.
Qed.

Lemma Sigma_app (u v : list R) :
  Spec.Sigma (u ++ v) = Spec.Sigma u + Spec.Sigma v.
Proof.
  unfold Spec.Sigma.
  induction u as [|x u IH]; cbn [app fold_right]; [|rewrite IH]; ring.
Qed.

(** In exact arithmetic the unrolled loop and the pairwise scheme add
    up to the plain sum. *)
Lemma unrolled_sum_Sigma (n : nat) :
  forall (l : list R) (r0 r1 r2 r3 r4 r5 r6 r7 : R),
    (length l <= n)%nat ->
    unrolled_sum r0 r1 r2 r3 r4 r5 r6 r7 l
    = r0 + r1 + r2 + r3 + r4 + r5 + r6 + r7 + Spec.Sigma l.
Proof.
  induction n as [|n IH]; intros l r0 r1 r2 r3 r4 r5 r6 r7 L.
  - destruct l; [|cbn in L; lia].
    cbn [unrolled_sum fold_left]. unfold_scalar. unfold Spec.Sigma.
    cbn [fold_right]. ring.
  - destruct l as [|a0 [|a1 [|a2 [|a3 [|a4 [|a5 [|a6 [|a7 l]]]]]]]];
      cbn [unrolled_sum]; unfold_scalar;
      try (rewrite fold_left_Rplus; unfold Spec.Sigma; cbn [fold_right];
           ring).
    rewrite IH by (cbn [length] in L; lia).
    unfold Spec.Sigma. cbn [fold_right]. ring.
Qed.

Lemma pairwise_sum_Sigma (fuel : nat) :
  forall l : list R, pairwise_sum fuel l = Spec.Sigma l.
Proof.
  assert (F : forall l : list R, fold_left s_add l s_zero = Spec.Sigma l).
  { intros l. unfold_scalar. rewrite fold_left_Rplus. ring. }
  induction fuel as [|fuel IH]; intros l; cbn [pairwise_sum];
    destruct (length l <? 8)%nat; try apply F;
    destruct (length l <=? pw_blocksize)%nat; try apply F.
  - destruct l as [|a0 [|a1 [|a2 [|a3 [|a4 [|a5 [|a6 [|a7 l]]]]]]]];
      try apply F.
    rewrite (@unrolled_sum_Sigma (length l)) by lia.
    unfold Spec.Sigma. cbn [fold_right]. ring.
  - destruct l as [|a0 [|a1 [|a2 [|a3 [|a4 [|a5 [|a6 [|a7 l]]]]]]]];
      try apply F.
    rewrite (@unrolled_sum_Sigma (length l)) by lia.
    unfold Spec.Sigma. cbn [fold_right]. ring.
  - rewrite !IH. unfold_scalar. rewrite <- Sigma_app.
    now rewrite firstn_skipn.
Qed.

Lemma np_sum_Sigma (v : list R) : np_sum v = Spec.Sigma v.
Proof. unfold np_sum. rewrite pairwise_sum_Sigma. unfold_scalar. ring. Qed.

Lemma np_mean_spec (v : list R) : np_mean v = Spec.mean v.
Proof. unfold np_mean, Spec.mean; unfold_scalar. now rewrite np_sum_Sigma. Qed.

Lemma Sigma_map_ext {X} (f g : X -> R) (l : list X) :
  (forall x, In x l -> f x = g x) ->
  Spec.Sigma (map f l) = Spec.Sigma (map g l).
Proof.
  intros E. f_equal. apply map_ext_in, E.
Qed.

Lemma Sigma_map_plus {X} (f g : X -> R) (l : list X) :
  Spec.Sigma (map (fun x => f x + g x) l)
  = Spec.Sigma (map f l) + Spec.Sigma (map g l).
Proof.
  unfold Spec.Sigma.
  induction l as [|x l IH]; cbn [map fold_right]; [|rewrite IH]; ring.
Qed.

Lemma Sigma_map_scal {X} (c : R) (f : X -> R) (l : list X) :
  Spec.Sigma (map (fun x => c * f x) l) = c * Spec.Sigma (map f l).
Proof.
  unfold Spec.Sigma.
  induction l as [|x l IH]; cbn [map fold_right]; [|rewrite IH]; ring.
Qed.

Lemma Sigma_map_const {X} (c : R) (l : list X) :
  Spec.Sigma (map (fun _ => c) l) = INR (length l) * c.
Proof.
  unfold Spec.Sigma.
  induction l as [|x l IH]; [cbn [map fold_right length INR]; ring|].
  cbn [map fold_right length]. rewrite IH, S_INR. ring.
Qed.

Lemma dot_Sigma (u v : list R) :
  dot u v = Spec.Sigma (map (fun p => fst p * snd p) (combine u v)).
Proof. unfold dot. unfold_scalar. rewrite fold_left_Rplus. ring. Qed.

(** The products of two mapped lists, taken in the other order. *)
Lemma combine_map_swap {X} (f g : X -> R) (xs ys : list X) :
  map (fun p => fst p * snd p) (combine (map f ys) (map g xs))
  = map (fun p => g (fst p) * f (snd p)) (combine xs ys).
Proof.
  revert ys; induction xs as [|x xs IH]; intros [|y ys]; cbn; try reflexivity.
  rewrite IH. f_equal. ring.
Qed.

Lemma np_var_spec (v : list R) : np_var v = Spec.Var v.
Proof.
  unfold np_var, Spec.Var. rewrite np_sum_Sigma, np_mean_spec. unfold_scalar.
  rewrite map_map. f_equal. apply Sigma_map_ext. intros; ring.
Qed.

Lemma line40_spec (xs y : list R) :
  length xs = length y ->
  line40 xs y = Spec.Cov xs y / Spec.Var xs.
Proof.
  intros E. unfold line40, Spec.Cov.
  rewrite dot_Sigma, combine_map_swap, np_var_spec, !np_mean_spec, <- E.
  unfold_scalar. unfold Rdiv. ring.
Qed.

(** C1. On 1-D arrays of one length, with a predictor of nonzero
    variance, [fit_simple] returns nothing and leaves the coefficient at
    [Cov(X, y) / Var(X)], both with denominator [n], and the intercept at
    [mean(y) - slope * mean(X)]. *)
Theorem fit_simple_spec (X y : list R) (self : LinearRegressor R) :
  length X = length y ->
  Spec.Var X <> 0 ->
  let slope := Spec.Cov X y / Spec.Var X in
  fit_simple (Arr1 X) y self
  = (Ok tt,
     {| coefficients := Some (CScalar slope);
        intercept := Some (Spec.mean y - slope * Spec.mean X) |}).
Proof.
  intros E _ slope. rewrite fit_simple_1d by exact E.
  rewrite (line40_spec _ _ E), !np_mean_spec. reflexivity.
Qed.

(* --------------------------------------------------------------- *)
(** *** The metrics *)

Lemma rss_spec (y_true y_pred : list R) :
  length y_true = length y_pred ->
  rss y_true y_pred = Ok (Spec.RSS y_true y_pred).
Proof.
  intros E. unfold rss, Spec.RSS, square.
  rewrite broadcast2_same_length by exact E. cbn [rbind].
  rewrite np_sum_Sigma, map_map. unfold_scalar.
  f_equal. apply Sigma_map_ext. intros; ring.
Qed.

Lemma tss_spec (y_true : list R) : tss y_true = Spec.TSS y_true.
Proof.
  unfold tss, Spec.TSS, square.
  rewrite np_sum_Sigma, np_mean_spec, map_map. unfold_scalar.
  apply Sigma_map_ext. intros; ring.
Qed.

(** The metrics over exact arithmetic: for sequences of one length
    [n >= 1], the true values not all equal, [evaluate_regression]
    returns the mapping with exactly the keys R2, RMSE and MAE, bound to
    [1 - RSS/TSS], [sqrt(RSS/n)] and [(1/n) * sum |y_true - y_pred|]. *)
Lemma evaluate_regression_spec (y_true y_pred : list R) :
  length y_true = length y_pred ->
  (1 <= length y_true)%nat ->
  non_constant y_true ->
  evaluate_regression y_true y_pred
  = Ok [("R2"%string, Spec.R2 y_true y_pred);
        ("RMSE"%string, Spec.RMSE y_true y_pred);
        ("MAE"%string, Spec.MAE y_true y_pred)].
Proof.
  intros E Hn _. unfold evaluate_regression.
  rewrite (rss_spec _ _ E), tss_spec. cbn [rbind].
  rewrite broadcast2_same_length by exact E. cbn [rbind].
  destruct (length y_true) as [|n] eqn:En; [lia|]. cbn [py_inv_len rbind].
  unfold Spec.R2, Spec.RMSE, Spec.MAE. rewrite En.
  rewrite !np_sum_Sigma. unfold square. rewrite !map_map. unfold_scalar.
  repeat f_equal; apply Sigma_map_ext; intros; ring.
Qed.

(* --------------------------------------------------------------- *)
(** *** Translation of the data *)

Lemma map_sub_shift_l (a c : R) (v : list R) :
  map (fun x => a + c - x) (map (fun x => x + c) v) = map (fun x => a - x) v.
Proof. rewrite map_map. apply map_ext. intros; ring. Qed.

Lemma map_sub_shift_r (b c : R) (u : list R) :
  map (fun x => x - (b + c)) (map (fun x => x + c) u) = map (fun x => x - b) u.
Proof. rewrite map_map. apply map_ext. intros; ring. Qed.

Lemma broadcast2_sub_shift (c : R) (u v : list R) :
  broadcast2 s_sub (add_scalar c u) (add_scalar c v) = broadcast2 s_sub u v.
Proof.
  unfold broadcast2, add_scalar. rewrite !length_map.
  destruct (length u =? length v).
  - f_equal. revert v; induction u as [|a u IH]; intros [|b v]; cbn [map combine];
      try reflexivity.
    unfold_scalar. rewrite IH. f_equal. cbn [fst snd]. ring.
  - destruct u as [|a [|a' u]], v as [|b [|b' v]]; cbn [map]; try reflexivity;
      unfold_scalar; rewrite ?map_sub_shift_l, ?map_sub_shift_r;
      repeat (f_equal; try ring).
Qed.

Lemma mean_shift (c : R) (v : list R) :
  v <> [] -> Spec.mean (add_scalar c v) = Spec.mean v + c.
Proof.
  intros Hv. unfold Spec.mean, add_scalar. unfold_scalar.
  rewrite Sigma_map_plus, Sigma_map_const, length_map.
  replace (map (fun x => x) v) with v by (symmetry; apply map_id).
  field. destruct v; [congruence|]. apply not_0_INR. discriminate.
Qed.

Lemma tss_shift (c : R) (v : list R) : tss (add_scalar c v) = tss v.
Proof.
  destruct v as [|x v]; [reflexivity|].
  rewrite !tss_spec. unfold Spec.TSS.
  rewrite mean_shift by discriminate. unfold add_scalar at 1.
  rewrite map_map. unfold_scalar. apply Sigma_map_ext. intros; ring.
Qed.

(** C9. In exact arithmetic, adding one constant to the true and to
    the predicted values changes neither RSS nor TSS, nor any of the
    metrics that [evaluate_regression] returns.  (In binary64 the
    additions round, and the metrics change with them.) *)
Theorem evaluate_regression_shift (c : R) (y_true y_pred : list R) :
  rss (add_scalar c y_true) (add_scalar c y_pred) = rss y_true y_pred /\
  tss (add_scalar c y_true) = tss y_true /\
  evaluate_regression (add_scalar c y_true) (add_scalar c y_pred)
  = evaluate_regression y_true y_pred.
Proof.
  split; [|split].
  - unfold rss. now rewrite broadcast2_sub_shift.
  - apply tss_shift.
  - unfold evaluate_regression, rss.
    rewrite broadcast2_sub_shift, tss_shift.
    unfold add_scalar at 1 2. now rewrite !length_map.
Qed.

End Exact.

(* ================================================================= *)
(** ** Binary64 arithmetic: the embedding at [float] *)

Module Binary64.
Import PrimFloat SpecFloat FloatOps FloatAxioms.






End Binary64.

(* ================================================================= *)
(** ** Integer arrays: when [int64] does not wrap *)

Module Integers.
Import Int64.
Local Open Scope Z_scope.

Lemma wrap_small (z : Z) : in_range z -> wrap z = z.
Proof.
  unfold in_range, wrap. intros Hz. rewrite Z.mod_small; lia.
Qed.

Lemma wrap_add_l (a b : Z) : wrap (wrap a + b) = wrap (a + b).
Proof.
  unfold wrap. f_equal.
  replace ((a + 2 ^ 63) mod 2 ^ 64 - 2 ^ 63 + b + 2 ^ 63)
    with ((a + 2 ^ 63) mod 2 ^ 64 + b) by ring.
  rewrite Z.add_mod_idemp_l by lia. f_equal. ring.
Qed.

Lemma fold_left_add (v : list Z) (a : Z) :
  fold_left add v (wrap a) = wrap (a + fold_right Z.add 0 v).
Proof.
  revert a; induction v as [|x v IH]; intros a; cbn [fold_left fold_right].
  - now rewrite Z.add_0_r.
  - unfold add at 2. rewrite wrap_add_l, IH. f_equal. ring.
Qed.

(** The [int64] sum is the sum of the integers, wrapped once. *)
Lemma sum_wrap (v : list Z) : sum v = wrap (fold_right Z.add 0 v).
Proof.
  unfold sum. change 0 with (wrap 0) at 1. now rewrite fold_left_add.
Qed.

Lemma sum_nonneg {X} (f : X -> Z) (l : list X) :
  (forall t, 0 <= f t) -> 0 <= fold_right Z.add 0 (map f l).
Proof.
  intros Hf. induction l as [|t l IH]; cbn [map fold_right]; [lia|].
  specialize (Hf t). lia.
Qed.

Lemma term_le_sum {X} (f : X -> Z) (l : list X) (x : X) :
  (forall t, 0 <= f t) -> In x l -> f x <= fold_right Z.add 0 (map f l).
Proof.
  intros Hf. induction l as [|t l IH]; intros Hx; [destruct Hx|].
  cbn [map fold_right].
  pose proof (sum_nonneg f l Hf).
  destruct Hx as [->|Hx]; [lia|]. specialize (IH Hx). specialize (Hf t). lia.
Qed.

Lemma sum_le_sum {X} (f g : X -> Z) (l : list X) :
  (forall t, f t <= g t) ->
  fold_right Z.add 0 (map f l) <= fold_right Z.add 0 (map g l).
Proof.
  intros Hfg. induction l as [|t l IH]; cbn [map fold_right]; [lia|].
  specialize (Hfg t). lia.
Qed.

Lemma abs_le_square (e : Z) : Z.abs e <= e * e.
Proof. nia. Qed.

(** While the sum of the squared residuals stays below [2^63], no
    residual, square, absolute value or sum wraps. *)
Lemma no_overflow (y_true y_pred : list Z) :
  RSS y_true y_pred < 2 ^ 63 ->
  let d := map (fun p => sub (fst p) (snd p)) (combine y_true y_pred) in
  sum (map (fun x => mul x x) d) = RSS y_true y_pred /\
  sum (map abs d) = SAE y_true y_pred.
Proof.
  intros Hss d. unfold d, RSS, SAE in *. rewrite !map_map, !sum_wrap.
  set (sq := fun p : Z * Z => (fst p - snd p) * (fst p - snd p)) in *.
  set (ab := fun p : Z * Z => Z.abs (fst p - snd p)).
  assert (Hsq0 : forall t, 0 <= sq t)
    by (intros t; apply Z.square_nonneg).
  assert (Hab0 : forall t, 0 <= ab t)
    by (intros t; apply Z.abs_nonneg).
  assert (Habsq : forall t, ab t <= sq t)
    by (intros t; apply abs_le_square).
  assert (Hsq : forall p, In p (combine y_true y_pred) -> in_range (sq p)).
  { intros p Hp. pose proof (term_le_sum sq _ p Hsq0 Hp).
    specialize (Hsq0 p). unfold in_range. lia. }
  assert (Hab : forall p, In p (combine y_true y_pred) ->
                          in_range (fst p - snd p)).
  { intros p Hp. specialize (Hsq p Hp). specialize (Habsq p).
    unfold in_range, ab in *. lia. }
  split.
  - rewrite (map_ext_in _ sq).
    + apply wrap_small. pose proof (sum_nonneg sq (combine y_true y_pred) Hsq0).
      unfold in_range. lia.
    + intros p Hp. unfold sub. rewrite (wrap_small (Hab p Hp)).
      unfold mul. apply wrap_small, Hsq, Hp.
  - rewrite (map_ext_in _ ab).
    + apply wrap_small.
      pose proof (sum_nonneg ab (combine y_true y_pred) Hab0).
      pose proof (sum_le_sum ab sq (combine y_true y_pred) Habsq).
      unfold in_range. lia.
    + intros p Hp. unfold sub. rewrite (wrap_small (Hab p Hp)).
      unfold abs. apply wrap_small.
      specialize (Hsq p Hp). specialize (Habsq p). specialize (Hab0 p).
      unfold in_range, ab in *. lia.
Qed.

End Integers.

(** C3. For floating-point sequences of one length [n >= 1], the true
    values not all equal, [evaluate_regression] returns the mapping with
    exactly the keys R2, RMSE and MAE, bound (in exact arithmetic) to
    [1 - RSS/TSS], [sqrt(RSS/n)] and [(1/n) * sum |y_true - y_pred|].
    For [int64] sequences of one length [n >= 1] it returns the mapping
    with the same keys, and while the sum of the squared residuals is
    below [2^63] the RSS and the sum of the absolute residuals in it
    are those of the integers: R2 is [1 - RSS/TSS], RMSE is
    [sqrt(RSS/n)] and MAE is [(1/n) * sum |y_true - y_pred|], the
    divisions, the square root and TSS being computed in [float64]. *)
Theorem evaluate_regression_values :
  (forall y_true y_pred : list R,
      length y_true = length y_pred ->
      (1 <= length y_true)%nat ->
      non_constant y_true ->
      evaluate_regression y_true y_pred
      = Ok [("R2"%string, Spec.R2 y_true y_pred);
            ("RMSE"%string, Spec.RMSE y_true y_pred);
            ("MAE"%string, Spec.MAE y_true y_pred)]) /\
  (forall y_true y_pred : list Z,
      Forall Int64.in_range y_true ->
      Forall Int64.in_range y_pred ->
      length y_true = length y_pred ->
      1 <= length y_true ->
      (Int64.RSS y_true y_pred < 2 ^ 63)%Z ->
      let n := s_of_nat (length y_true) in
      let RSS := Int64.to_float (Int64.RSS y_true y_pred) in
      let SAE := Int64.to_float (Int64.SAE y_true y_pred) in
      evaluate_regression_int64 y_true y_pred
      = Ok [("R2"%string, s_sub s_one (s_div RSS (tss_int64 y_true)));
            ("RMSE"%string, s_sqrt (s_div RSS n));
            ("MAE"%string, s_mul (s_div s_one n) SAE)]).
Proof.
  split; [exact Exact.evaluate_regression_spec|].
  intros y_true y_pred _ _ E Hn Hss n RSS SAE.
  unfold evaluate_regression_int64.
  rewrite broadcast2_same_length by exact E. cbn [rbind].
  destruct (Integers.no_overflow _ _ Hss) as [-> ->].
  destruct (length y_true) as [|m] eqn:En; [lia|]. reflexivity.
Qed.

(* ================================================================= *)
(** ** Exact arithmetic: rows, products and the inverse *)

Module Rows.
Import Exact.
Local Open Scope R_scope.

Lemma dot_nil_l (v : list R) : dot [] v = 0.
Proof. rewrite dot_Sigma. reflexivity. Qed.

Lemma dot_nil_r (u : list R) : dot u [] = 0.
Proof. rewrite dot_Sigma. destruct u; reflexivity. Qed.

Lemma dot_cons (x y : R) (u v : list R) :
  dot (x :: u) (y :: v) = x * y + dot u v.
Proof. rewrite !dot_Sigma. reflexivity. Qed.

Lemma dot_comm (u v : list R) : dot u v = dot v u.
Proof.
  revert v; induction u as [|a u IH]; intros [|b v];
    rewrite ?dot_nil_l, ?dot_nil_r, ?dot_cons; try reflexivity.
  rewrite IH. ring.
Qed.

Lemma row_scale_length (p : R) (w : list R) :
  length (row_scale p w) = length w.
Proof. apply length_map. Qed.

Lemma row_axpy_length (f : R) (r w : list R) :
  length w = length r -> length (row_axpy f r w) = length w.
Proof.
  intros E. unfold row_axpy. rewrite length_map, length_combine. lia.
Qed.

Lemma nth_row_scale (p : R) (w : list R) (c : nat) :
  nth c (row_scale p w) 0 = nth c w 0 / p.
Proof.
  unfold row_scale. unfold_scalar.
  replace 0 with (0 / p) at 1 by (unfold Rdiv; ring).
  apply (map_nth (fun x => x / p)).
Qed.

Lemma nth_row_axpy (f : R) (r w : list R) (c : nat) :
  length w = length r ->
  nth c (row_axpy f r w) 0 = nth c w 0 - f * nth c r 0.
Proof.
  unfold row_axpy. unfold_scalar.
  revert r c; induction w as [|x w IH]; intros [|z r] c E; try discriminate E.
  - destruct c; cbn; ring.
  - destruct c; cbn [combine map nth fst snd]; [reflexivity|].
    apply IH. now injection E.
Qed.

Lemma dot_row_scale (p : R) (w v : list R) :
  dot (row_scale p w) v = dot w v / p.
Proof.
  unfold row_scale. unfold_scalar.
  revert v; induction w as [|x w IH]; intros [|y v]; cbn [map];
    rewrite ?dot_nil_l, ?dot_nil_r, ?dot_cons; try (unfold Rdiv; ring).
  rewrite IH. unfold Rdiv; ring.
Qed.

Lemma dot_row_axpy (f : R) (r w v : list R) :
  length w = length r ->
  dot (row_axpy f r w) v = dot w v - f * dot r v.
Proof.
  unfold row_axpy. unfold_scalar.
  revert r v; induction w as [|x w IH]; intros [|z r] v E; try discriminate E.
  - cbn [combine map]. rewrite !dot_nil_l. ring.
  - destruct v as [|y v]; cbn [combine map fst snd].
    + rewrite !dot_nil_r. ring.
    + rewrite !dot_cons, IH by (now injection E). ring.
Qed.

(** Sums over an index range. *)
Lemma Sigma_zero {X} (f : X -> R) (l : list X) :
  (forall x, In x l -> f x = 0) -> Spec.Sigma (map f l) = 0.
Proof.
  intros E. rewrite (Sigma_map_ext f (fun _ => 0) l E), Sigma_map_const. ring.
Qed.

Lemma Sigma_indicator (a : R) (j s n : nat) :
  Spec.Sigma (map (fun c => if c =? j then a else 0) (seq s n))
  = if (s <=? j) && (j <? s + n) then a else 0.
Proof.
  unfold Spec.Sigma.
  revert s; induction n as [|n IH]; intros s; cbn [seq map fold_right].
  - destruct (s <=? j) eqn:E1, (j <? s + 0) eqn:E2; try reflexivity.
    apply Nat.leb_le in E1. apply Nat.ltb_lt in E2. lia.
  - rewrite IH. destruct (Nat.eqb_spec s j) as [->|Hne].
    + rewrite (proj2 (Nat.leb_gt (S j) j)) by lia.
      rewrite Nat.leb_refl, (proj2 (Nat.ltb_lt j (j + S n))) by lia.
      cbn. ring.
    + destruct (S s <=? j) eqn:E1, (s <=? j) eqn:E2;
        destruct (j <? S s + n) eqn:E3, (j <? s + S n) eqn:E4; cbn; try ring;
        repeat match goal with
               | H : (_ <=? _) = true |- _ => apply Nat.leb_le in H
               | H : (_ <=? _) = false |- _ => apply Nat.leb_gt in H
               | H : (_ <? _) = true |- _ => apply Nat.ltb_lt in H
               | H : (_ <? _) = false |- _ => apply Nat.ltb_ge in H
               end; lia.
Qed.

(** The product of a row with a vector given by its entries. *)
Lemma dot_map_seq (l : list R) (f : nat -> R) (s : nat) :
  dot l (map f (seq s (length l)))
  = Spec.Sigma (map (fun c => nth (c - s) l 0 * f c) (seq s (length l))).
Proof.
  revert s; induction l as [|x l IH]; intros s.
  - now rewrite dot_nil_l.
  - cbn [length seq map]. rewrite dot_cons, IH.
    cbn [Spec.Sigma fold_right]. fold (Spec.Sigma).
    rewrite Nat.sub_diag. cbn [nth]. f_equal.
    apply Sigma_map_ext. intros c Hc. apply in_seq in Hc.
    replace (c - s)%nat with (S (c - S s)) by lia. reflexivity.
Qed.

Lemma dot_unit_row (n j : nat) (v : list R) :
  length v = n -> (j < n)%nat -> dot (unit_row n j) v = nth j v 0.
Proof.
  intros E Hj. subst n. unfold unit_row. unfold_scalar.
  rewrite dot_comm, dot_map_seq.
  rewrite (Sigma_map_ext _ (fun c => if c =? j then nth j v 0 else 0)).
  - rewrite Sigma_indicator. cbn [Nat.leb andb Nat.add].
    now rewrite (proj2 (Nat.ltb_lt _ _) Hj).
  - intros c _. rewrite Nat.sub_0_r.
    destruct (Nat.eqb_spec c j) as [->|]; ring.
Qed.

End Rows.


Module GaussJordan.
Import Exact Rows.
Local Open Scope R_scope.

Lemma is_zero_true (x : R) : s_is_zero x = true <-> x = 0.
Proof.
  cbn [s_is_zero R_Scalar]. destruct (Req_dec_T x 0); split; auto; discriminate.
Qed.

Lemma find_pivot_None (k : nat) (todo : list (aug_row R)) :
  find_pivot k todo = None ->
  forall w, In w todo -> nth k (fst w) 0 = 0.
Proof.
  induction todo as [|w0 t IH]; cbn [find_pivot]; intros E w Hw; [destruct Hw|].
  destruct (s_is_zero (nth k (fst w0) s_zero)) eqn:Z; [|discriminate].
  destruct (find_pivot k t) as [[r rest]|]; [discriminate|].
  destruct Hw as [<-|Hw]; [now apply is_zero_true | now apply IH].
Qed.

Lemma find_pivot_Some (k : nat) (todo : list (aug_row R)) r rest :
  find_pivot k todo = Some (r, rest) ->
  nth k (fst r) 0 <> 0 /\
  length todo = S (length rest) /\
  (forall w, In w todo <-> w = r \/ In w rest).
Proof.
  revert r rest; induction todo as [|w0 t IH]; cbn [find_pivot]; intros r rest E;
    [discriminate|].
  destruct (s_is_zero (nth k (fst w0) s_zero)) eqn:Z.
  - destruct (find_pivot k t) as [[r1 rest1]|]; [|discriminate].
    injection E as <- <-. destruct (IH _ _ eq_refl) as (Hp & Hl & Hin).
    split; [exact Hp|]. split; [cbn; now rewrite Hl|].
    intros w. cbn [In]. rewrite Hin. tauto.
  - injection E as <- <-. split; [|split].
    + intros E0. apply is_zero_true in E0. cbn [s_zero R_Scalar] in Z. congruence.
    + reflexivity.
    + intros w. cbn [In]. split; intros [->|Hw]; auto.
Qed.

Lemma nth_normalise (k c : nat) (r : aug_row R) :
  nth c (fst (normalise k r)) 0 = nth c (fst r) 0 / nth k (fst r) 0.
Proof. cbn [normalise fst]. apply nth_row_scale. Qed.

Lemma nth_eliminate (k c : nat) (r w : aug_row R) :
  length (fst w) = length (fst r) ->
  nth c (fst (eliminate k r w)) 0
  = nth c (fst w) 0 - nth k (fst w) 0 * nth c (fst r) 0.
Proof. intros E. cbn [eliminate fst]. now apply nth_row_axpy. Qed.

Lemma length_normalise (k : nat) (r : aug_row R) :
  length (fst (normalise k r)) = length (fst r).
Proof. cbn [normalise fst]. apply row_scale_length. Qed.

Lemma length_eliminate (k : nat) (r w : aug_row R) :
  length (fst w) = length (fst r) ->
  length (fst (eliminate k r w)) = length (fst w).
Proof. intros E. cbn [eliminate fst]. now apply row_axpy_length. Qed.

(** One column of the elimination keeps the echelon shape. *)
Lemma echelon_step (n : nat) (done todo : list (aug_row R)) r rest :
  echelon n done todo ->
  find_pivot (length done) todo = Some (r, rest) ->
  let r' := normalise (length done) r in
  echelon n (map (eliminate (length done) r') done ++ [r'])
            (map (eliminate (length done) r') rest).
Proof.
  intros (Hlen & Hdone & Htodo) Hp r'. set (k := length done) in *.
  destruct (find_pivot_Some _ _ Hp) as (Hpiv & _ & Hin).
  assert (Hr : In r todo) by (apply Hin; auto).
  assert (Lr' : length (fst r') = n)
    by (unfold r'; rewrite length_normalise; auto).
  assert (Pk : nth k (fst r') 0 = 1)
    by (unfold r'; rewrite nth_normalise; now field).
  assert (Pc : forall c, (c < k)%nat -> nth c (fst r') 0 = 0).
  { intros c Hc. unfold r'. rewrite nth_normalise, (Htodo r c Hr Hc).
    now field. }
  assert (Le : forall w, length (fst w) = n ->
                         length (fst (eliminate k r' w)) = n).
  { intros w Lw. rewrite length_eliminate; congruence. }
  assert (Ec : forall w c, length (fst w) = n -> (c < k)%nat ->
               nth c (fst (eliminate k r' w)) 0 = nth c (fst w) 0).
  { intros w c Lw Hc. rewrite nth_eliminate, Pc by congruence. ring. }
  assert (Ek : forall w, length (fst w) = n ->
               nth k (fst (eliminate k r' w)) 0 = 0).
  { intros w Lw. rewrite nth_eliminate, Pk by congruence. ring. }
  assert (Ld : length (map (eliminate k r') done ++ [r']) = S k)
    by (rewrite length_app, length_map; cbn; fold k; lia).
  split; [|split].
  - intros w [Hw|Hw].
    + apply in_app_or in Hw. destruct Hw as [Hw|[<-|[]]]; [|exact Lr'].
      apply in_map_iff in Hw. destruct Hw as (w0 & <- & Hw0). auto.
    + apply in_map_iff in Hw. destruct Hw as (w0 & <- & Hw0).
      apply Le, Hlen. right. apply Hin. auto.
  - rewrite Ld. intros j c Hj Hc.
    destruct (Nat.eq_dec j k) as [->|Hjk].
    + rewrite app_nth2 by (rewrite length_map; fold k; lia).
      rewrite length_map. fold k. rewrite Nat.sub_diag. cbn [nth].
      unfold delta. destruct (Nat.eqb_spec k c) as [<-|Hkc]; [exact Pk|].
      apply Pc. lia.
    + assert (Hj' : (j < k)%nat) by lia.
      rewrite app_nth1 by (rewrite length_map; fold k; lia).
      rewrite (nth_indep _ _ (eliminate k r' ([], [])))
        by (rewrite length_map; fold k; lia).
      rewrite map_nth.
      assert (Lw : length (fst (nth j done ([], []))) = n)
        by (apply Hlen; left; apply nth_In; fold k; lia).
      destruct (Nat.eq_dec c k) as [->|Hck].
      * rewrite Ek by exact Lw. unfold delta.
        destruct (Nat.eqb_spec j k); [lia|reflexivity].
      * rewrite Ec by (auto; lia). apply Hdone; fold k; lia.
  - rewrite Ld. intros w c Hw Hc.
    apply in_map_iff in Hw. destruct Hw as (w0 & <- & Hw0).
    assert (Hw1 : In w0 todo) by (apply Hin; auto).
    destruct (Nat.eq_dec c k) as [->|Hck].
    + apply Ek. auto.
    + rewrite Ec by (auto; lia). apply Htodo; [exact Hw1 | fold k; lia].
Qed.

(** Both kinds of row operation keep the right part equal to the left
    part times a fixed matrix. *)
Lemma row_axpy_map {X} (f : R) (g g' : X -> R) (C : list X) :
  row_axpy f (map g' C) (map g C) = map (fun c => g c - f * g' c) C.
Proof.
  unfold row_axpy. unfold_scalar.
  induction C as [|c C IH]; cbn [map combine fst snd]; [reflexivity|].
  now rewrite <- IH.
Qed.

Lemma tracks_normalise (C : list (list R)) (k : nat) (r : aug_row R) :
  tracks C r -> tracks C (normalise k r).
Proof.
  unfold tracks. cbn [normalise fst snd]. intros ->.
  unfold row_scale at 1. rewrite map_map. apply map_ext. intros c.
  now rewrite dot_row_scale.
Qed.

Lemma tracks_eliminate (C : list (list R)) (k : nat) (r w : aug_row R) :
  length (fst w) = length (fst r) ->
  tracks C r -> tracks C w -> tracks C (eliminate k r w).
Proof.
  unfold tracks. cbn [eliminate fst snd]. intros E -> ->.
  rewrite row_axpy_map. apply map_ext. intros c.
  now rewrite dot_row_axpy.
Qed.

Lemma seq_cons_inv (a b k : nat) (l : list nat) :
  k :: l = seq a b -> exists m, b = S m /\ k = a /\ l = seq (S a) m.
Proof.
  destruct b as [|m]; cbn [seq]; intros E; [discriminate|].
  injection E as -> ->. eauto.
Qed.

(** When the elimination ends, the left parts are the rows of the
    identity, and a property of the rows that both row operations keep
    still holds. *)
Lemma gauss_jordan_Some (n : nat) (P : aug_row R -> Prop) :
  (forall k r, P r -> P (normalise k r)) ->
  (forall k r w, length (fst w) = length (fst r) ->
                 P r -> P w -> P (eliminate k r w)) ->
  forall cols done todo res,
    echelon n done todo ->
    (forall w, In w done \/ In w todo -> P w) ->
    cols = seq (length done) (length todo) ->
    gauss_jordan cols done todo = Some res ->
    length res = (length done + length todo)%nat /\
    echelon n res [] /\
    (forall w, In w res -> P w).
Proof.
  intros HPn HPe.
  induction cols as [|k cols IH]; intros done todo res He Ht Hc Hg.
  - assert (L : length todo = 0%nat)
      by (apply (f_equal (@length nat)) in Hc; rewrite length_seq in Hc; auto).
    destruct todo; [|discriminate L]. cbn in Hg. injection Hg as <-.
    split; [cbn; lia|]. split; [exact He|]. intros w Hw. apply Ht. auto.
  - destruct (seq_cons_inv _ _ Hc) as (m & Lm & -> & Hc').
    cbn [gauss_jordan] in Hg.
    destruct (find_pivot (length done) todo) as [[r rest]|] eqn:Hp;
      [|discriminate].
    destruct (find_pivot_Some _ _ Hp) as (Hpiv & Hl & Hin).
    pose proof (echelon_step He Hp) as He'. cbn zeta in He'.
    destruct He as (Hlen & _).
    assert (Lr : length (fst (normalise (length done) r)) = n)
      by (rewrite length_normalise; apply Hlen; right; apply Hin; auto).
    assert (Tr : P (normalise (length done) r))
      by (apply HPn, Ht; right; apply Hin; auto).
    assert (Te : forall w, In w done \/ In w todo ->
                           P (eliminate (length done)
                                (normalise (length done) r) w)).
    { intros w Hw. apply HPe; auto.
      rewrite Lr. now apply Hlen. }
    destruct (IH _ _ res He') as (L & He'' & Ht'').
    + intros w [Hw|Hw].
      * apply in_app_or in Hw. destruct Hw as [Hw|[<-|[]]]; [|exact Tr].
        apply in_map_iff in Hw. destruct Hw as (w0 & <- & Hw0). auto.
      * apply in_map_iff in Hw. destruct Hw as (w0 & <- & Hw0).
        apply Te. right. apply Hin. auto.
    + rewrite length_app, !length_map. cbn [length].
      rewrite Nat.add_1_r, Hc'. f_equal. lia.
    + exact Hg.
    + split; [|auto].
      rewrite L, length_app, !length_map. cbn [length]. lia.
Qed.

Lemma nth_map_seq (f : nat -> R) (k n : nat) :
  (k < n)%nat -> nth k (map f (seq 0 n)) 0 = f k.
Proof.
  intros Hk.
  rewrite (nth_indep _ 0 (f 0%nat)) by (now rewrite length_map, length_seq).
  now rewrite (map_nth f), seq_nth.
Qed.

(** A column without a pivot depends on the columns before it. *)
Lemma dependency_length (n : nat) (done : list (aug_row R)) :
  length (dependency n done) = n.
Proof. unfold dependency. now rewrite length_map, length_seq. Qed.

Lemma dependency_nth (n : nat) (done : list (aug_row R)) :
  (length done < n)%nat -> nth (length done) (dependency n done) 0 = 1.
Proof.
  intros Hk. unfold dependency. rewrite nth_map_seq by exact Hk.
  now rewrite Nat.ltb_irrefl, Nat.eqb_refl.
Qed.

Lemma dependency_annihilates (n : nat) (done todo : list (aug_row R)) :
  echelon n done todo ->
  (length done < n)%nat ->
  find_pivot (length done) todo = None ->
  annihilates (dependency n done) (done ++ todo).
Proof.
  intros (Hlen & Hdone & Htodo) Hk Hp w Hw.
  unfold dependency. unfold aug_row in *.
  assert (Lw : length (fst w) = n)
    by (apply Hlen; apply in_app_or in Hw; tauto).
  rewrite <- Lw, dot_map_seq, Lw.
  apply in_app_or in Hw. destruct Hw as [Hw|Hw].
  - destruct (In_nth _ _ ([], []) Hw) as (j & Hj & <-).
    rewrite (Sigma_map_ext _
               (fun c => (if c =? j
                          then - nth (length done) (fst (nth j done ([], []))) 0
                          else 0)
                         + (if c =? length done
                            then nth (length done) (fst (nth j done ([], []))) 0
                            else 0))).
    + rewrite Sigma_map_plus, !Sigma_indicator. cbn [Nat.leb andb Nat.add].
      rewrite (proj2 (Nat.ltb_lt j n)), (proj2 (Nat.ltb_lt (length done) n))
        by lia.
      ring.
    + intros c Hc. cbv beta. rewrite Nat.sub_0_r.
      destruct (Nat.ltb_spec c (length done)) as [Hck|Hck].
      * rewrite (Hdone j c Hj Hck). unfold delta.
        rewrite (Nat.eqb_sym j c).
        destruct (Nat.eqb_spec c (length done)) as [Ek|_]; [lia|].
        destruct (Nat.eqb_spec c j) as [Ej|_]; [subst c|]; ring.
      * destruct (Nat.eqb_spec c j) as [Ej|_]; [lia|].
        destruct (Nat.eqb_spec c (length done)) as [Ek|_]; [subst c|]; ring.
  - apply Sigma_zero. intros c Hc. cbv beta. rewrite Nat.sub_0_r.
    destruct (Nat.ltb_spec c (length done)) as [Hck|Hck].
    + rewrite (Htodo w c Hw Hck). ring.
    + destruct (Nat.eqb_spec c (length done)) as [->|Hne]; [|ring].
      rewrite (find_pivot_None _ _ Hp w Hw). ring.
Qed.

(** The rows before a step are combinations of the rows after it. *)
Lemma annihilates_step (n : nat) (v : list R) (done todo : list (aug_row R))
      r rest :
  (forall w, In w done \/ In w todo -> length (fst w) = n) ->
  find_pivot (length done) todo = Some (r, rest) ->
  let r' := normalise (length done) r in
  annihilates v ((map (eliminate (length done) r') done ++ [r'])
                 ++ map (eliminate (length done) r') rest) ->
  annihilates v (done ++ todo).
Proof.
  intros Hlen Hp r' Ha. set (k := length done) in *.
  destruct (find_pivot_Some _ _ Hp) as (Hpiv & _ & Hin).
  assert (Lr' : length (fst r') = n)
    by (unfold r'; rewrite length_normalise; apply Hlen; right; apply Hin; auto).
  assert (Zr' : dot (fst r') v = 0)
    by (apply Ha; rewrite <- app_assoc; apply in_or_app; right; left; auto).
  assert (Zr : dot (fst r) v = 0).
  { unfold r' in Zr'. cbn [normalise fst] in Zr'. rewrite dot_row_scale in Zr'.
    replace (dot (fst r) v) with (dot (fst r) v / nth k (fst r) 0 * nth k (fst r) 0)
      by (now field).
    unfold s_zero in Zr'. cbn [R_Scalar] in Zr'. rewrite Zr'. ring. }
  assert (Ze : forall w, length (fst w) = n ->
                         dot (fst (eliminate k r' w)) v = 0 ->
                         dot (fst w) v = 0).
  { intros w Lw Z. cbn [eliminate fst] in Z.
    rewrite dot_row_axpy, Zr' in Z by congruence.
    unfold s_zero in Z. cbn [R_Scalar] in Z. lra. }
  intros w Hw. apply in_app_or in Hw. destruct Hw as [Hw|Hw].
  - apply Ze; [auto|]. apply Ha. apply in_or_app. left. apply in_or_app. left.
    now apply in_map.
  - apply Hin in Hw. destruct Hw as [->|Hw]; [exact Zr|].
    apply Ze; [apply Hlen; right; apply Hin; auto|].
    apply Ha. apply in_or_app. right. now apply in_map.
Qed.

(** When the elimination stops on a column without a pivot, a nonzero
    vector is orthogonal to every row it started from. *)
Lemma gauss_jordan_None (n : nat) :
  forall cols done todo,
    echelon n done todo ->
    (length done + length todo = n)%nat ->
    cols = seq (length done) (length todo) ->
    gauss_jordan cols done todo = None ->
    exists v, length v = n /\ (exists c, nth c v 0 <> 0) /\
              annihilates v (done ++ todo).
Proof.
  induction cols as [|k cols IH]; intros done todo He Hn Hc Hg; [discriminate|].
  destruct (seq_cons_inv _ _ Hc) as (m & Lm & -> & Hc').
  cbn [gauss_jordan] in Hg.
  destruct (find_pivot (length done) todo) as [[r rest]|] eqn:Hp.
  - destruct (find_pivot_Some _ _ Hp) as (Hpiv & Hl & Hin).
    pose proof (echelon_step He Hp) as He'. cbn zeta in He'.
    destruct (IH _ _ He') as (v & Lv & Hv & Ha).
    + rewrite length_app, !length_map. cbn [length]. lia.
    + rewrite length_app, !length_map. cbn [length].
      rewrite Nat.add_1_r, Hc'. f_equal. lia.
    + exact Hg.
    + exists v. split; [exact Lv|]. split; [exact Hv|].
      destruct He as (Hlen & _).
      eapply annihilates_step; [exact Hlen | exact Hp | exact Ha].
  - exists (dependency n done). split; [apply dependency_length|]. split.
    + exists (length done). rewrite dependency_nth by lia. lra.
    + apply dependency_annihilates; [exact He | lia | exact Hp].
Qed.

(* --------------------------------------------------------------- *)
(** *** Products of matrices, row by row *)

Lemma matmul_Ok (M N P : matrix R) :
  matmul M N = Ok P ->
  ncols M = nrows N /\
  P = Matrix (ncols N)
        (map (fun r => map (dot r) (rows (transpose N))) (rows M)).
Proof.
  unfold matmul. destruct (Nat.eqb_spec (ncols M) (nrows N)); [|discriminate].
  intros E. injection E as <-. auto.
Qed.

Lemma combine_map_r {X Y} (f : X -> Y) (l : list X) :
  combine l (map f l) = map (fun x => (x, f x)) l.
Proof. induction l as [|x l IH]; cbn; [reflexivity | now rewrite IH]. Qed.

Lemma map_nth_seq (l : list R) :
  map (fun c => nth c l 0) (seq 0 (length l)) = l.
Proof.
  induction l as [|x l IH]; [reflexivity|].
  cbn [length seq map nth]. f_equal.
  rewrite <- seq_shift, map_map. exact IH.
Qed.

Lemma nth_unit_row (n j c : nat) :
  (c < n)%nat -> nth c (unit_row n j) 0 = delta j c.
Proof.
  intros Hc. unfold unit_row. rewrite nth_map_seq by exact Hc.
  unfold delta. unfold_scalar. now rewrite Nat.eqb_sym.
Qed.

Lemma dot_zeros_l {X} (l : list X) (v : list R) :
  dot (map (fun _ => 0) l) v = 0.
Proof.
  revert v; induction l as [|x l IH]; intros [|y v]; cbn [map];
    rewrite ?dot_nil_l, ?dot_nil_r, ?dot_cons, ?IH; ring.
Qed.

Lemma dot_map_plus {X} (a : R) (f h : X -> R) (l : list X) (v : list R) :
  dot (map (fun j => a * f j + h j) l) v
  = a * dot (map f l) v + dot (map h l) v.
Proof.
  revert v; induction l as [|x l IH]; intros [|y v]; cbn [map];
    rewrite ?dot_nil_l, ?dot_nil_r, ?dot_cons, ?IH; ring.
Qed.

(** [(b M) v = b (M v)]: a row times a matrix times a vector. *)
Lemma dot_assoc (M : matrix R) (b v : list R) :
  wf_matrix M ->
  dot (map (dot b) (rows (transpose M))) v
  = dot b (map (fun g => dot g v) (rows M)).
Proof.
  destruct M as [m rs]. unfold wf_matrix, transpose. cbn [rows ncols].
  rewrite map_map. revert b; induction rs as [|g rs IH]; intros b Hwf.
  - cbn [map]. rewrite dot_nil_r. apply dot_zeros_l.
  - destruct b as [|b0 b].
    + rewrite dot_nil_l.
      rewrite (map_ext _ (fun _ => 0)) by (intros; apply dot_nil_l).
      apply dot_zeros_l.
    + cbn [map]. rewrite dot_cons.
      rewrite (map_ext _ (fun j => b0 * nth j g 0
                                   + dot b (map (fun r => nth j r 0) rs)))
        by (intros; apply dot_cons).
      rewrite dot_map_plus. inversion Hwf as [|? ? Lg Hwf']; subst.
      rewrite map_nth_seq, IH by exact Hwf'. reflexivity.
Qed.

(** The rows of the identity select the rows of a matrix. *)
Lemma unit_row_times (B : matrix R) (j : nat) :
  wf_matrix B -> (j < nrows B)%nat ->
  map (dot (unit_row (nrows B) j)) (rows (transpose B))
  = nth j (rows B) [].
Proof.
  intros Hwf Hj. unfold transpose. cbn [rows]. rewrite map_map.
  rewrite (map_ext_in _ (fun c => nth c (nth j (rows B) []) 0)).
  - assert (L : length (nth j (rows B) []) = ncols B)
      by (apply (proj1 (Forall_forall _ _) Hwf), nth_In, Hj).
    rewrite <- L. apply map_nth_seq.
  - intros c _. rewrite dot_unit_row by (rewrite ?length_map; auto).
    rewrite (nth_indep _ 0 ((fun r => nth c r 0) []))
      by (now rewrite length_map).
    rewrite (map_nth (fun r => nth c r 0)). reflexivity.
Qed.

Lemma nth_map_seq_list {Y} (f : nat -> Y) (d : Y) (k n : nat) :
  (k < n)%nat -> nth k (map f (seq 0 n)) d = f k.
Proof.
  intros Hk.
  rewrite (nth_indep _ d (f 0%nat)) by (now rewrite length_map, length_seq).
  now rewrite (map_nth f), seq_nth.
Qed.

Lemma nth_map_list {X Y} (f : X -> Y) (l : list X) (dx : X) (dy : Y) (k : nat) :
  (k < length l)%nat -> nth k (map f l) dy = f (nth k l dx).
Proof.
  intros Hk. rewrite (nth_indep _ dy (f dx)) by (now rewrite length_map).
  apply map_nth.
Qed.

(** Over exact arithmetic the elimination of [linalg_inv] returns the
    inverse of every matrix that has one. *)
Theorem linalg_inv_spec (G B : matrix R) :
  Spec.is_inverse G B -> linalg_inv G = Ok B.
Proof.
  intros (Hsq & HwG & HrB & HcB & HwB & HGB & HBG).
  apply matmul_Ok in HGB. destruct HGB as (_ & E1).
  apply matmul_Ok in HBG. destruct HBG as (_ & E2).
  apply (f_equal rows) in E1. apply (f_equal rows) in E2.
  unfold identity in E1, E2. cbn [rows] in E1, E2.
  unfold linalg_inv. rewrite <- Hsq, Nat.eqb_refl.
  remember (nrows G) as n eqn:En. remember (rows (transpose B)) as C eqn:EC.
  assert (Ha : augment G = map (fun g => (g, map (dot g) C)) (rows G)).
  { unfold augment, identity. cbn [rows]. rewrite <- En, E1.
    apply combine_map_r. }
  assert (Hlen : forall w, In w (augment G) -> length (fst w) = n).
  { intros w Hw. rewrite Ha in Hw. apply in_map_iff in Hw.
    destruct Hw as (g & <- & Hg). cbn [fst]. rewrite Hsq.
    exact (proj1 (Forall_forall _ _) HwG g Hg). }
  assert (L0 : length (augment G) = n)
    by (rewrite Ha, length_map, En; reflexivity).
  assert (He : echelon n [] (augment G)).
  { split; [|split].
    - intros w [[]|Hw]. auto.
    - cbn [length]. intros; lia.
    - cbn [length]. intros; lia. }
  destruct (gauss_jordan (seq 0 n) [] (augment G)) as [res|] eqn:Hg.
  - assert (HT : forall w, In w [] \/ In w (augment G) -> tracks C w).
    { intros w [[]|Hw]. rewrite Ha in Hw. apply in_map_iff in Hw.
      destruct Hw as (g & <- & _). reflexivity. }
    assert (HC : seq 0 n = seq (length (@nil (aug_row R))) (length (augment G)))
      by (cbn [length]; now rewrite L0).
    destruct (@gauss_jordan_Some n (tracks C)
                (fun k r => @tracks_normalise C k r)
                (fun k r w => @tracks_eliminate C k r w)
                (seq 0 n) [] (augment G) res He HT HC Hg)
      as (L & (Hl & Hpat & _) & Ht).
    + cbn [length Nat.add] in L. rewrite L0 in L.
      destruct B as [cb rb]. cbn [ncols rows nrows] in *. subst cb.
      f_equal. f_equal.
      assert (Lb : length rb = n) by exact HrB.
      apply (nth_ext _ _ [] []);
        [rewrite length_map; transitivity n; [exact L | symmetry; exact Lb]|].
      rewrite length_map. intros j Hj.
      assert (Hj' : (j < n)%nat) by (rewrite <- L; exact Hj).
      rewrite (nth_map_list snd res ([], [])) by lia.
      assert (Hin : In (nth j res ([], [])) res) by (apply nth_In; lia).
      rewrite (Ht _ Hin).
      assert (Ef : fst (nth j res ([], [])) = unit_row n j).
      { apply (nth_ext _ _ 0 0).
        - unfold unit_row. rewrite length_map, length_seq. apply Hl. auto.
        - rewrite (Hl _ (or_introl Hin)). intros c Hc.
          rewrite nth_unit_row by exact Hc. apply Hpat; lia. }
      rewrite Ef, EC.
      pose proof (@unit_row_times (Matrix n rb) j HwB) as U.
      rewrite HrB in U. exact (U Hj').
  - exfalso.
    assert (HN : (length (@nil (aug_row R)) + length (augment G))%nat = n)
      by (cbn [length]; now rewrite L0).
    assert (HC : seq 0 n = seq (length (@nil (aug_row R))) (length (augment G)))
      by (cbn [length]; now rewrite L0).
    destruct (@gauss_jordan_None n (seq 0 n) [] (augment G) He HN HC Hg)
      as (v & Lv & (c & Hc) & Hv).
    + apply Hc. destruct (Nat.lt_ge_cases c n) as [Hcn|Hcn];
        [|apply nth_overflow; lia].
      rewrite <- (dot_unit_row (n:=n) (j:=c) v Lv Hcn).
      assert (Er : unit_row n c
                   = map (dot (nth c (rows B) [])) (rows (transpose G))).
      { apply (f_equal (fun l => nth c l [])) in E2.
        rewrite nth_map_seq_list in E2 by exact Hcn.
        rewrite (nth_map_list _ (rows B) []) in E2
          by (unfold nrows in HrB; lia).
        exact E2. }
      rewrite Er, dot_assoc by exact HwG.
      rewrite (map_ext_in _ (fun _ => 0)).
      * rewrite dot_comm. apply dot_zeros_l.
      * intros g Hg'. apply (Hv (g, map (dot g) C)). cbn [app].
        rewrite Ha. exact (in_map (fun g => (g, map (dot g) C)) _ _ Hg').
Qed.

Lemma echelon_final (n : nat) (res : list (aug_row R)) (j : nat) :
  echelon n res [] -> length res = n -> (j < n)%nat ->
  fst (nth j res ([], [])) = unit_row n j.
Proof.
  intros (Hl & Hpat & _) L Hj.
  assert (Hin : In (nth j res ([], [])) res) by (apply nth_In; lia).
  apply (nth_ext _ _ 0 0).
  - unfold unit_row. rewrite length_map, length_seq. apply Hl. auto.
  - rewrite (Hl _ (or_introl Hin)). intros c Hc.
    rewrite nth_unit_row by exact Hc. apply Hpat; lia.
Qed.

(** Over exact arithmetic the elimination of [linalg_inv] meets a
    column without a pivot on every square matrix whose columns are
    linearly dependent.  (In binary64 LAPACK raises only on a pivot that
    is exactly zero: a Gram matrix that rounding has left non-singular
    is inverted.) *)
Theorem linalg_inv_singular (G : matrix R) :
  nrows G = ncols G -> wf_matrix G -> Spec.rank_deficient G ->
  linalg_inv G = Raise singular_matrix.
Proof.
  intros Hsq Hwf (v & Lv & (c & Hc) & Hv).
  unfold linalg_inv. rewrite <- Hsq, Nat.eqb_refl.
  remember (nrows G) as n eqn:En.
  destruct (gauss_jordan (seq 0 n) [] (augment G)) as [res|] eqn:Hg;
    [exfalso|reflexivity].
  assert (Hfst : forall w, In w (augment G) -> In (fst w) (rows G)).
  { intros [l r] Hw. unfold augment in Hw. exact (in_combine_l _ _ _ _ Hw). }
  assert (L0 : length (augment G) = n).
  { unfold augment, identity, aug_row. cbn [rows].
    rewrite length_combine, length_map, length_seq, <- En.
    unfold nrows in En. rewrite <- En. apply Nat.min_id. }
  assert (He : echelon n [] (augment G)).
  { split; [|split].
    - intros w [[]|Hw]. rewrite Hsq.
      exact (proj1 (Forall_forall _ _) Hwf _ (Hfst w Hw)).
    - cbn [length]. intros; lia.
    - cbn [length]. intros; lia. }
  assert (HT : forall w, In w [] \/ In w (augment G) -> dot (fst w) v = 0)
    by (intros w [[]|Hw]; auto).
  assert (HC : seq 0 n = seq (length (@nil (aug_row R))) (length (augment G)))
    by (cbn [length]; now rewrite L0).
  destruct (@gauss_jordan_Some n (fun w => dot (fst w) v = 0)) with
    (cols := seq 0 n) (done := @nil (aug_row R)) (todo := augment G) (res := res)
    as (L & He' & Hz); auto.
  - intros k r Hr. cbn [normalise fst]. rewrite dot_row_scale, Hr.
    unfold Rdiv. ring.
  - intros k r w E Hr Hw. cbn [eliminate fst].
    rewrite dot_row_axpy, Hr, Hw by exact E. ring.
  - cbn [length Nat.add] in L. rewrite L0 in L.
    apply Hc. destruct (Nat.lt_ge_cases c n) as [Hcn|Hcn];
      [|apply nth_overflow; lia].
    rewrite <- (dot_unit_row (n:=n) (j:=c) v) by (auto; lia).
    rewrite <- (echelon_final He' L Hcn).
    apply Hz, nth_In. lia.
Qed.

End GaussJordan.

(* ================================================================= *)
(** ** Exact arithmetic: multiple regression *)

Module Multiple.
Import Exact Rows GaussJordan.
Local Open Scope R_scope.

Lemma wf_transpose (M : matrix R) : wf_matrix (transpose M).
Proof.
  unfold wf_matrix, transpose. cbn [rows ncols].
  apply Forall_forall. intros r Hr. apply in_map_iff in Hr.
  destruct Hr as (j & <- & _). now rewrite length_map.
Qed.

Lemma mat_vec_dot (M : list (list R)) (v : list R) :
  Spec.mat_vec M v = map (fun r => dot r v) M.
Proof. unfold Spec.mat_vec. apply map_ext. intros r. now rewrite dot_Sigma. Qed.

Lemma nrows_c_ones (X : matrix R) : nrows (c_ones (Arr2 X)) = nrows X.
Proof. unfold nrows. cbn [c_ones rows]. apply length_map. Qed.

(** [fit_multiple], unfolded, for an inverse [B] of [X'^T X']: the
    parameters are the entries of [B] times the products of the rows of
    [X'^T] with [y]. *)
Lemma fit_multiple_solves
      (X : matrix R) (y : list R) (G B : matrix R)
      (self : LinearRegressor R) :
  length y = nrows X ->
  matmul (transpose (c_ones (Arr2 X))) (c_ones (Arr2 X)) = Ok G ->
  Spec.is_inverse G B ->
  let Xt := transpose (c_ones (Arr2 X)) in
  let w := map (fun b => dot b (map (fun g => dot g y) (rows Xt))) (rows B) in
  length w = S (ncols X) /\
  fit_multiple (Arr2 X) y self
  = (Ok tt, {| coefficients := Some (CArray (tl w));
               intercept := Some (hd 0 w) |}).
Proof.
  intros Ly HG HB Xt w.
  pose proof (linalg_inv_spec HB) as Hinv.
  destruct HB as (_ & _ & HrB & HcB & _ & _ & _).
  destruct (matmul_Ok _ _ HG) as (_ & EG).
  assert (Hn : nrows G = S (ncols X)).
  { rewrite EG. unfold nrows. cbn [rows]. rewrite length_map.
    unfold transpose. cbn [rows]. now rewrite length_map, length_seq. }
  assert (Lw : length w = S (ncols X)).
  { unfold w. rewrite length_map. fold (nrows B). congruence. }
  split; [exact Lw|].
  assert (Hw : (w' <- (BXt <- matmul B Xt ;; matvec BXt y) ;; Ok w')%py
               = Ok w).
  { unfold matmul.
    replace (nrows Xt) with (S (ncols X))
      by (unfold Xt, transpose, nrows; cbn [rows c_ones ncols];
          now rewrite length_map, length_seq).
    rewrite HcB, Hn, Nat.eqb_refl. cbn [rbind]. unfold matvec. cbn [ncols rows].
    replace (ncols Xt) with (length y)
      by (unfold Xt, transpose; cbn [ncols]; now rewrite nrows_c_ones).
    rewrite Nat.eqb_refl. cbn [rbind]. rewrite map_map. unfold w. f_equal.
    apply map_ext. intros b. apply dot_assoc, wf_transpose. }
  unfold fit_multiple, mbind, call. rewrite HG, Hinv. fold Xt.
  destruct (matmul B Xt) as [BXt|]; [|discriminate Hw]. cbn [rbind] in Hw.
  destruct (matvec BXt y) as [w'|]; [|discriminate Hw].
  injection Hw as ->. destruct w as [|i cs]; [discriminate Lw|]. reflexivity.
Qed.

(** C2. For an [n]-by-[p] matrix [X] and a vector [y] of length [n],
    when [X'^T X'] has an inverse [B] ([X'] being [X] with a leading
    column of ones), [fit_multiple] leaves the regressor with the
    solution [w = B (X'^T y)] of the normal equations: the intercept
    is the first entry of [w], the coefficients are its other [p]
    entries, in the order of the columns of [X]. *)
Theorem fit_multiple_normal_equations
        (X : matrix R) (y : list R) (G B : matrix R)
        (self : LinearRegressor R) :
  wf_matrix X ->
  length y = nrows X ->
  matmul (transpose (c_ones (Arr2 X))) (c_ones (Arr2 X)) = Ok G ->
  Spec.is_inverse G B ->
  exists i cs,
    Spec.normal_solution (rows B) (rows (transpose (c_ones (Arr2 X)))) y
    = i :: cs /\
    length cs = ncols X /\
    fit_multiple (Arr2 X) y self
    = (Ok tt, {| coefficients := Some (CArray cs); intercept := Some i |}).
Proof.
  intros _ Ly HG HB.
  destruct (@fit_multiple_solves X y G B self Ly HG HB) as (Lw & Hfit).
  unfold Spec.normal_solution. rewrite !mat_vec_dot.
  destruct (map _ (rows B)) as [|i cs]; [discriminate Lw|].
  exists i, cs. split; [reflexivity|]. split; [now injection Lw|].
  exact Hfit.
Qed.

(** Over exact arithmetic: when [X'^T X'] is rank-deficient, the
    inversion in [fit_multiple] raises the singular-matrix error and the
    regressor keeps its state. *)
Theorem fit_multiple_singular
        (X : matrix R) (y : list R) (G : matrix R)
        (self : LinearRegressor R) :
  matmul (transpose (c_ones (Arr2 X))) (c_ones (Arr2 X)) = Ok G ->
  Spec.rank_deficient G ->
  fit_multiple (Arr2 X) y self = (Raise singular_matrix, self).
Proof.
  intros HG HR. destruct (matmul_Ok _ _ HG) as (_ & EG).
  assert (Hinv : linalg_inv G = Raise singular_matrix).
  { apply linalg_inv_singular; [| |exact HR]; rewrite EG.
    - unfold nrows. cbn [rows ncols]. rewrite length_map.
      unfold transpose. cbn [rows]. now rewrite length_map, length_seq.
    - unfold wf_matrix. cbn [rows ncols]. apply Forall_forall.
      intros r Hr. apply in_map_iff in Hr. destruct Hr as (r0 & <- & _).
      rewrite length_map. unfold transpose. cbn [rows].
      now rewrite length_map, length_seq. }
  unfold fit_multiple, mbind, call. now rewrite HG, Hinv.
Qed.

(* --------------------------------------------------------------- *)
(** *** One feature *)



(** Sums of products of deviations. *)
Lemma Sigma_deviations (l : list (R * R)) (a b : R) :
  Spec.Sigma (map (fun p => (fst p - a) * (snd p - b)) l)
  = Spec.Sigma (map (fun p => fst p * snd p) l)
    - a * Spec.Sigma (map snd l) - b * Spec.Sigma (map fst l)
    + INR (length l) * a * b.
Proof.
  unfold Spec.Sigma.
  induction l as [|p l IH]; [cbn; ring|].
  cbn [map fold_right length]. rewrite IH, S_INR. ring.
Qed.

Lemma Sigma_square_deviations (l : list R) (a : R) :
  Spec.Sigma (map (fun x => (x - a) ^ 2) l)
  = Spec.Sigma (map (fun x => x * x) l) - 2 * a * Spec.Sigma l
    + INR (length l) * a * a.
Proof.
  unfold Spec.Sigma.
  induction l as [|x l IH]; [cbn; ring|].
  cbn [map fold_right length]. rewrite IH, S_INR. ring.
Qed.

Lemma map_fst_combine (xs ys : list R) :
  length xs = length ys -> map fst (combine xs ys) = xs.
Proof.
  revert ys; induction xs as [|x xs IH]; intros [|y ys] E; try discriminate E;
    [reflexivity|].
  cbn. f_equal. apply IH. now injection E.
Qed.

Lemma map_snd_combine (xs ys : list R) :
  length xs = length ys -> map snd (combine xs ys) = ys.
Proof.
  revert ys; induction xs as [|x xs IH]; intros [|y ys] E; try discriminate E;
    [reflexivity|].
  cbn. f_equal. apply IH. now injection E.
Qed.





Lemma wf_column_array (xs : list R) : wf_matrix (column_array xs).
Proof.
  unfold wf_matrix, column_array. cbn [rows ncols].
  apply Forall_forall. intros r Hr. apply in_map_iff in Hr.
  now destruct Hr as (x & <- & _).
Qed.


Lemma Var_nonzero (xs : list R) :
  Spec.Var xs <> 0 ->
  INR (length xs) <> 0 /\
  INR (length xs) * Spec.Sigma (map (fun x => x * x) xs)
  - Spec.Sigma xs * Spec.Sigma xs <> 0.
Proof.
  intros HV.
  assert (Hn : INR (length xs) <> 0).
  { intros E. apply HV. unfold Spec.Var. rewrite E. unfold Rdiv.
    rewrite Rinv_0. ring. }
  split; [exact Hn|]. intros E. apply HV. unfold Spec.Var, Spec.mean.
  rewrite Sigma_square_deviations.
  replace (Spec.Sigma (map (fun x => x * x) xs))
    with (Spec.Sigma xs * Spec.Sigma xs / INR (length xs)) by (field_simplify_eq; [lra|exact Hn]).
  now field.
Qed.



End Multiple.

(* ================================================================= *)
(** ** The theorems on concrete data *)

Module OnFloats.
Import PrimFloat.
Local Open Scope float_scope.

(** The first scenario of the specification, in binary64. *)
Example fit_simple_exact_line :
  fit_simple (Arr1 [1; 2; 3; 4]) [2; 4; 6; 8] LinearRegressor_init
  = (Ok tt, {| coefficients := Some (CScalar 2); intercept := Some 0 |}).
Proof. reflexivity. Qed.

Example evaluate_perfect_fit :
  evaluate_regression [2; 4; 6; 8] [2; 4; 6; 8]
  = Ok [("R2"%string, 1); ("RMSE"%string, 0); ("MAE"%string, 0)].
Proof. reflexivity. Qed.


(** Ten copies of [0.1] are summed pairwise to exactly [1]: the computed
    mean is [0.1], the computed variance is zero, and the fit is [nan]. *)
Example constant_predictor_exact_mean :
  let x := 0x1.999999999999ap-4 in
  np_mean (repeat x 10) = x /\
  is_zero (np_var (repeat x 10)) = true /\
  fit_simple (Arr1 (repeat x 10)) [1; 2; 3; 4; 5; 6; 7; 8; 9; 10]
             LinearRegressor_init
  = (Ok tt, {| coefficients := Some (CScalar nan); intercept := Some nan |}).
Proof. repeat split; reflexivity. Qed.

(** Against C5 as it is written: with the scalar coefficient that
    [fit_simple] stores, [predict] of an [n]-by-1 input does not return
    an array of length [n]: it returns an [n]-by-1 array. *)
Lemma predict_scalar_coefficient_keeps_2d :
  fit_simple (Arr1 [1; 2; 3; 4]) [2; 4; 6; 8] LinearRegressor_init
  = (Ok tt, {| coefficients := Some (CScalar 2); intercept := Some 0 |}) /\
  predict {| coefficients := Some (CScalar 2); intercept := Some 0 |}
          (Arr2 (column_array [1; 2; 3; 4]))
  = Ok (Arr2 (column_array [2; 4; 6; 8])) /\
  np_shape (Arr2 (column_array [2; 4; 6; 8])) = [4; 1]%nat /\
  forall p : list float,
    predict {| coefficients := Some (CScalar 2); intercept := Some 0 |}
            (Arr2 (column_array [1; 2; 3; 4]))
    <> Ok (Arr1 p).
Proof.
  repeat (split; [reflexivity|]).
  intros p E. vm_compute in E. discriminate E.
Qed.

(** Against C9 as it is written: in binary64 the metrics are not
    invariant under a translation of both arrays.  Adding [1e17] makes
    the three true values and the three predictions equal: RSS and TSS
    become zero, R2 becomes [nan], RMSE and MAE zero. *)
Lemma evaluate_regression_shift_rounds :
  rss [1; 2; 3] [1; 2; 4] = Ok 1 /\
  rss (add_scalar 1e17 [1; 2; 3]) (add_scalar 1e17 [1; 2; 4]) = Ok 0 /\
  tss [1; 2; 3] = 2 /\
  tss (add_scalar 1e17 [1; 2; 3]) = 0 /\
  evaluate_regression [1; 2; 3] [1; 2; 4]
  = Ok [("R2"%string, 0.5); ("RMSE"%string, sqrt (1 / 3));
        ("MAE"%string, 1 / 3)] /\
  evaluate_regression (add_scalar 1e17 [1; 2; 3]) (add_scalar 1e17 [1; 2; 4])
  = Ok [("R2"%string, nan); ("RMSE"%string, 0); ("MAE"%string, 0)] /\
  evaluate_regression (add_scalar 1e17 [1; 2; 3]) (add_scalar 1e17 [1; 2; 4])
  <> evaluate_regression [1; 2; 3] [1; 2; 4].
Proof.
  repeat (split; [reflexivity|]).
  intros E.
  apply (f_equal (fun r => match r with
                           | Ok ((_, r2) :: _) => is_nan r2
                           | _ => false
                           end)) in E.
  vm_compute in E. discriminate E.
Qed.

(** Against C3 as it is written: on [int64] arrays the squares of
    line 101 and of line 107 wrap.  For a residual of [4000000000] the
    sum of squares that the code forms is negative, the R2 it returns
    is above one and the RMSE is [nan], where [1 - RSS/TSS] is [-1] and
    [RSS/n] is [8 * 10^18]. *)
Lemma evaluate_regression_int64_wraps :
  Int64.RSS [0; 4000000000]%Z [0; 0]%Z = 16000000000000000000%Z /\
  Int64.sum (map (fun x => Int64.mul x x)
                 [Int64.sub 0 0; Int64.sub 4000000000 0]%Z)
  = (-2446744073709551616)%Z /\
  Spec.R2 [0; 4000000000]%R [0; 0]%R = (-1)%R /\
  Spec.RMSE [0; 4000000000]%R [0; 0]%R = R_sqrt.sqrt 8000000000000000000%R /\
  exists r2 rmse mae,
    evaluate_regression_int64 [0; 4000000000]%Z [0; 0]%Z
    = Ok [("R2"%string, r2); ("RMSE"%string, rmse); ("MAE"%string, mae)] /\
    ltb 1 r2 = true /\ is_nan rmse = true.
Proof.
  split; [reflexivity|]. split; [reflexivity|]. split; [|split].
  - unfold Spec.R2, Spec.RSS, Spec.TSS, Spec.mean, Spec.Sigma.
    cbn [map fold_right combine length INR fst snd]. field.
  - unfold Spec.RMSE, Spec.RSS, Spec.Sigma.
    cbn [map fold_right combine length INR fst snd]. f_equal. field.
  - do 3 eexists. split; [reflexivity|]. split; reflexivity.
Qed.

Lemma predict_formula_witness :
  predict {| coefficients := Some (CArray [2]); intercept := Some 1 |}
          (Arr1 [1; 2; 3])
  = Ok (Arr1 [3; 5; 7]) /\
  predict {| coefficients := Some (CArray [2]); intercept := Some 1 |}
          (Arr2 (Matrix 1 [[1]; [2]]))
  = Ok (Arr1 [3; 5]) /\
  predict {| coefficients := Some (CScalar 2); intercept := Some 1 |}
          (Arr2 (Matrix 1 [[1]; [2]]))
  = Ok (Arr2 (Matrix 1 [[3]; [5]])).
Proof.
  destruct (@predict_formula float _
              {| coefficients := Some (CArray [2]); intercept := Some 1 |}
              (CArray [2]) 1 eq_refl eq_refl) as (H1 & H2 & _).
  destruct (@predict_formula float _
              {| coefficients := Some (CScalar 2); intercept := Some 1 |}
              (CScalar 2) 1 eq_refl eq_refl) as (_ & _ & H3).
  split; [|split].
  - rewrite (H1 2 [1; 2; 3] (or_intror eq_refl)). reflexivity.
  - rewrite (H2 [2] (Matrix 1 [[1]; [2]]) eq_refl eq_refl). reflexivity.
  - rewrite (H3 2 (Matrix 1 [[1]; [2]]) eq_refl). reflexivity.
Defined.

Lemma fit_simple_single_feature_2d_witness :
  fit_simple (Arr2 (column_array [1; 2; 3; 4])) [2; 4; 6; 8] LinearRegressor_init
  = (Ok tt, {| coefficients := Some (CScalar 2); intercept := Some 0 |}) /\
  fit_simple (Arr2 (row_array [1; 2; 3; 4])) [2; 4; 6; 8] LinearRegressor_init
  = (Ok tt, {| coefficients := Some (CScalar 2); intercept := Some 0 |}).
Proof.
  destruct (@fit_simple_single_feature_2d float _ [1; 2; 3; 4] [2; 4; 6; 8]
              LinearRegressor_init eq_refl) as (Hc & Hr & _).
  rewrite Hc, Hr. split; reflexivity.
Defined.


End OnFloats.

Module OnReals.
Import Exact Multiple.
Local Open Scope R_scope.

Ltac list_of_reals := repeat (first [reflexivity | apply (f_equal2 cons); [lra|]]).
Ltac rows_of_reals :=
  repeat (first [reflexivity | apply (f_equal2 cons); [list_of_reals|]]).
Ltac sums := unfold Spec.Cov, Spec.Var, Spec.mean, Spec.Sigma;
             cbn [map fold_right length INR combine fst snd].

Lemma fit_simple_spec_witness :
  Spec.Var [1; 2; 3; 4] <> 0 /\
  fit_simple (Arr1 [1; 2; 3; 4]) [2; 4; 6; 8] LinearRegressor_init
  = (Ok tt, {| coefficients := Some (CScalar 2); intercept := Some 0 |}).
Proof.
  assert (HV : Spec.Var [1; 2; 3; 4] <> 0) by (sums; lra).
  split; [exact HV|].
  rewrite (@fit_simple_spec [1; 2; 3; 4] [2; 4; 6; 8] LinearRegressor_init
             eq_refl HV).
  assert (Es : Spec.Cov [1; 2; 3; 4] [2; 4; 6; 8] / Spec.Var [1; 2; 3; 4] = 2)
    by (sums; field).
  rewrite Es. do 3 f_equal. sums. field.
Defined.

(** Four observations of [y = 1 + 2 x1 - 3 x2]. *)
Lemma fit_multiple_normal_equations_witness :
  fit_multiple (Arr2 (Matrix 2 [[0; 0]; [1; 0]; [0; 1]; [1; 1]]))
               [1; 3; -2; 0] LinearRegressor_init
  = (Ok tt, {| coefficients := Some (CArray [2; -3]); intercept := Some 1 |}).
Proof.
  pose (X := Matrix 2 [[0; 0]; [1; 0]; [0; 1]; [1; 1]]).
  pose (G := Matrix 3 [[4; 2; 2]; [2; 2; 1]; [2; 1; 2]]).
  pose (B := Matrix 3 [[3/4; -1/2; -1/2]; [-1/2; 1; 0]; [-1/2; 0; 1]]).
  assert (HX : wf_matrix X) by (repeat constructor).
  assert (HG : matmul (transpose (c_ones (Arr2 X))) (c_ones (Arr2 X)) = Ok G).
  { vm_compute. do 2 f_equal. rows_of_reals. }
  assert (HB : Spec.is_inverse G B).
  { unfold Spec.is_inverse.
    split; [reflexivity|]. split; [repeat constructor|].
    split; [reflexivity|]. split; [reflexivity|].
    split; [repeat constructor|].
    split; vm_compute; do 2 f_equal; rows_of_reals. }
  destruct (@fit_multiple_normal_equations X [1; 3; -2; 0] G B
              LinearRegressor_init HX eq_refl HG HB)
    as (i & cs & Hw & _ & Hfit).
  fold X. rewrite Hfit.
  assert (Ew : i :: cs = [1; 2; -3]).
  { rewrite <- Hw. vm_compute. list_of_reals. }
  injection Ew as -> ->. reflexivity.
Defined.


End OnReals.

Module OnIntegers.
Import PrimFloat.
Local Open Scope R_scope.

Lemma evaluate_regression_values_witness :
  (non_constant [2; 4; 6; 8]%R /\
   evaluate_regression [2; 4; 6; 8]%R [2; 4; 6; 9]%R
   = Ok [("R2"%string, Spec.R2 [2; 4; 6; 8] [2; 4; 6; 9]);
         ("RMSE"%string, Spec.RMSE [2; 4; 6; 8] [2; 4; 6; 9]);
         ("MAE"%string, Spec.MAE [2; 4; 6; 8] [2; 4; 6; 9])]) /\
  ((Int64.RSS [2; 4; 6; 8] [2; 4; 6; 10] < 2 ^ 63)%Z /\
   evaluate_regression_int64 [2; 4; 6; 8]%Z [2; 4; 6; 10]%Z
   = Ok [("R2"%string, 1 - 4 / 20); ("RMSE"%string, 1);
         ("MAE"%string, 1 / 4 * 2)]%float).
Proof.
  destruct evaluate_regression_values as [HR HZ].
  assert (HN : non_constant [2; 4; 6; 8]%R).
  { exists 2%R, 4%R. cbn [In]. repeat split; auto. lra. }
  split; split.
  - exact HN.
  - apply HR; [reflexivity | cbn; lia | exact HN].
  - reflexivity.
  - rewrite (HZ [2; 4; 6; 8]%Z [2; 4; 6; 10]%Z);
      [reflexivity | | | reflexivity | cbn; lia | cbn; lia];
      repeat constructor; unfold Int64.in_range; lia.
Defined.

End OnIntegers.

(* ================================================================= *)
(** ** Further properties, for every scalar type *)

Section Calls.
Context {A : Type} `{Scalar A}.

Lemma np_cov_one_row (v y : list A) (M : matrix A) :
  rows M = [v] ->
  np_cov (Arr2 M) y
  = if length v =? length y
    then np_cov (Arr1 v) y
    else Raise concat_error.
Proof.
  intros E. unfold np_cov. cbn [rows_ndmin2]. rewrite E. cbn [forallb].
  destruct (length v =? length y); reflexivity.
Qed.

Lemma fit_simple_mismatch (v y : list A) (self : LinearRegressor A) :
  length v <> length y ->
  fit_simple (Arr1 v) y self = (Raise concat_error, self).
Proof.
  intros N. unfold fit_simple, mbind, call, np_cov.
  cbn [np_ndim Nat.ltb Nat.leb rows_ndmin2 forallb].
  apply Nat.eqb_neq in N. now rewrite N.
Qed.

(** X1. On 1-D arrays, [fit_simple] raises exactly when the two
    lengths differ: it is then the [ValueError] of the concatenation in
    [np.cov], raised before anything is assigned. *)
Theorem fit_simple_length_mismatch (X y : list A) (self : LinearRegressor A) :
  (exists e, fit_simple (Arr1 X) y self = (Raise e, self)) <->
  length X <> length y.
Proof.
  split.
  - intros (e & He) E. rewrite fit_simple_1d in He by exact E. discriminate He.
  - intros N. exists concat_error. now apply fit_simple_mismatch.
Qed.

Lemma concat_length_wf (M : matrix A) :
  wf_matrix M -> length (concat (rows M)) = nrows M * ncols M.
Proof.
  destruct M as [c rs]. unfold wf_matrix, nrows. cbn [rows ncols].
  induction rs as [|r rs IH]; intros Hwf; [reflexivity|].
  inversion Hwf as [|? ? Lr Hwf']; subst.
  cbn [concat length]. rewrite length_app, IH by exact Hwf'. lia.
Qed.

(** X2. A 2-D predictor of [n >= 1] rows and a number of columns other
    than one is not fitted column by column, nor silently: the reshape
    to one row gives [n * p] values against the [n] of [y], and
    [fit_simple] raises the [ValueError] of [np.cov], the object kept. *)
Theorem fit_simple_multi_feature_raises
        (M : matrix A) (y : list A) (self : LinearRegressor A) :
  wf_matrix M ->
  1 <= nrows M ->
  ncols M <> 1 ->
  length y = nrows M ->
  fit_simple (Arr2 M) y self = (Raise concat_error, self).
Proof.
  intros Hwf Hn Hp Ly.
  rewrite fit_simple_flatten. apply fit_simple_mismatch.
  rewrite (concat_length_wf Hwf), Ly. nia.
Qed.

(** X3. What a fit call does is the same from every prior state: the
    same exception, or the same final attributes. *)
Theorem fit_forgets_prior_state (X : ndarray A) (y : list A)
        (self self' : LinearRegressor A) :
  same_outcome (fit_simple X y self) (fit_simple X y self') /\
  same_outcome (fit_multiple X y self) (fit_multiple X y self').
Proof.
  split.
  - unfold fit_simple, mbind, call.
    destruct (np_cov _ y) as [c|]; [|reflexivity].
    destruct (getitem2 c 1 0); cbn; auto.
  - unfold fit_multiple, mbind, call.
    destruct (matmul _ _) as [G|]; [|reflexivity].
    destruct (linalg_inv G) as [B|]; [|reflexivity].
    destruct (matmul B _) as [BXt|]; [|reflexivity].
    destruct (matvec BXt y) as [w|]; [|reflexivity].
    destruct (getitem0 w); cbn; auto.
Qed.

Lemma broadcast2_Ok_iff (f : A -> A -> A) (u v : list A) :
  (exists d, broadcast2 f u v = Ok d) <-> broadcastable (length u) (length v) = true.
Proof.
  unfold broadcast2, broadcastable.
  destruct (length u =? length v) eqn:E; cbn [orb]; [split; eauto|].
  destruct u as [|a [|a' u]], v as [|b [|b' v]]; cbn [length Nat.eqb orb];
    split; intros Hd; eauto; try discriminate Hd;
    try (destruct Hd as (d & Hd); discriminate Hd).
Qed.

Lemma broadcast2_Raise (f : A -> A -> A) (u v : list A) (e : exn) :
  broadcast2 f u v = Raise e -> e = broadcast_error.
Proof.
  unfold broadcast2. destruct (length u =? length v); [discriminate|].
  destruct u as [|a [|a' u]], v as [|b [|b' v]]; intros E;
    try discriminate E; now injection E.
Qed.

(** X4. [evaluate_regression] returns exactly when the two arrays
    broadcast together and [y_true] is not empty, and then the mapping
    has the keys R2, RMSE, MAE in this order.  Arrays that do not
    broadcast raise the broadcasting [ValueError]; an empty [y_true]
    raises [ZeroDivisionError], from [1/len(y_true)]. *)
Theorem evaluate_regression_outcome (y_true y_pred : list A) :
  match evaluate_regression y_true y_pred with
  | Ok m =>
      broadcastable (length y_true) (length y_pred) = true /\
      1 <= length y_true /\
      map fst m = ["R2"; "RMSE"; "MAE"]%string
  | Raise e =>
      (broadcastable (length y_true) (length y_pred) = false /\
       e = broadcast_error) \/
      (broadcastable (length y_true) (length y_pred) = true /\
       length y_true = 0 /\ e = division_by_zero)
  end.
Proof.
  unfold evaluate_regression, rss.
  destruct (broadcast2 s_sub y_true y_pred) as [d|e] eqn:Eb; cbn [rbind].
  - assert (Hb : broadcastable (length y_true) (length y_pred) = true)
      by (apply (proj1 (broadcast2_Ok_iff s_sub y_true y_pred)); eauto).
    destruct (length y_true) as [|n] eqn:En; cbn [py_inv_len rbind].
    + right. auto.
    + split; [exact Hb|]. split; [lia|reflexivity].
  - left. split; [|exact (broadcast2_Raise _ _ _ Eb)].
    destruct (broadcastable _ _) eqn:Hb; [|reflexivity].
    apply (proj2 (broadcast2_Ok_iff s_sub y_true y_pred)) in Hb.
    destruct Hb as (d & Hd).
    rewrite Hd in Eb. discriminate Eb.
Qed.

(** X5. After [fit_simple] has returned, [predict] raises on no input:
    the coefficient is a scalar, and the result has the shape of the
    input, 1-D or 2-D. *)
Theorem predict_after_fit_simple
        (X : ndarray A) (y : list A) (self model : LinearRegressor A)
        (Z : ndarray A) :
  fit_simple X y self = (Ok tt, model) ->
  exists out, predict model Z = Ok out /\ np_shape out = np_shape Z.
Proof.
  unfold fit_simple, mbind, call.
  destruct (np_cov _ y) as [c|]; [|discriminate].
  destruct (getitem2 c 1 0) as [c10|]; [|discriminate].
  cbn. intros E. injection E as <-. cbn [predict coefficients intercept].
  destruct Z as [z|M]; eexists; (split; [reflexivity|]); cbn [np_shape].
  - now rewrite length_map.
  - unfold nrows. cbn [rows ncols]. now rewrite length_map.
Qed.

(** X6. With an array of [p] coefficients, [predict] of a 2-D input
    raises the shape [ValueError] exactly when the input does not have
    [p] columns.  A 1-D input of length [p] is not taken as one
    observation: it is multiplied entry by entry and gives [p] values;
    a 1-D input of another length (neither being one) raises the
    broadcasting [ValueError]. *)
Theorem predict_array_coefficients
        (self : LinearRegressor A) (cs : list A) (i : A) :
  coefficients self = Some (CArray cs) ->
  intercept self = Some i ->
  (forall M, predict self (Arr2 M) = Raise shape_error <->
             ncols M <> length cs) /\
  (forall x, length x = length cs ->
             predict self (Arr1 x) = Ok (Arr1 (entrywise i cs x))) /\
  (forall x, length x <> length cs -> length x <> 1 -> length cs <> 1 ->
             predict self (Arr1 x) = Raise broadcast_error).
Proof.
  intros Ec Ei. unfold predict. rewrite Ec, Ei. split; [|split].
  - intros M. unfold ndarray_dot.
    destruct (Nat.eqb_spec (ncols M) (length cs)) as [E|N]; cbn [rbind].
    + split; [discriminate | contradiction].
    + split; auto.
  - intros x E. rewrite broadcast2_same_length by (symmetry; exact E).
    cbn [rbind]. unfold entrywise. now rewrite map_map.
  - intros x N N1 Nc. unfold broadcast2.
    destruct (Nat.eqb_spec (length cs) (length x)) as [E|_]; [congruence|].
    destruct cs as [|a [|a' cs]], x as [|b [|b' x]]; cbn [length] in *;
      try reflexivity; contradiction.
Qed.

(** X7. [fit_multiple] takes a 1-D predictor as the one column of a
    matrix: [np.c_] stacks it beside the ones. *)
Theorem fit_multiple_1d_is_column (xs y : list A) (self : LinearRegressor A) :
  fit_multiple (Arr1 xs) y self = fit_multiple (Arr2 (column_array xs)) y self.
Proof.
  unfold fit_multiple. cbn [c_ones column_array ncols rows].
  now rewrite map_map.
Qed.

Lemma ncols_matmul (M N P : matrix A) :
  matmul M N = Ok P -> ncols P = ncols N /\ nrows P = nrows M.
Proof.
  unfold matmul. destruct (ncols M =? nrows N); [|discriminate].
  intros E. injection E as <-. unfold nrows. cbn [ncols rows].
  now rewrite length_map.
Qed.

Lemma nrows_transpose (M : matrix A) : nrows (transpose M) = ncols M.
Proof. unfold transpose, nrows. cbn [rows]. now rewrite length_map, length_seq. Qed.

Lemma np_len_c_ones (X : ndarray A) : nrows (c_ones X) = np_len X.
Proof. destruct X; unfold nrows; cbn [c_ones rows np_len]; apply length_map. Qed.

(** X8. A response whose length is not the number of rows of the
    predictor makes [fit_multiple] raise, and the object is kept. *)
Theorem fit_multiple_length_mismatch
        (X : ndarray A) (y : list A) (self : LinearRegressor A) :
  length y <> np_len X ->
  exists e, fit_multiple X y self = (Raise e, self).
Proof.
  intros N. unfold fit_multiple, mbind, call.
  destruct (matmul _ _) as [G|]; [|eauto].
  destruct (linalg_inv G) as [B|]; [|eauto].
  destruct (matmul B _) as [BXt|] eqn:E; [|eauto].
  destruct (ncols_matmul _ _ E) as (Ec & _). unfold matvec. rewrite Ec.
  cbn [transpose ncols]. rewrite np_len_c_ones.
  destruct (Nat.eqb_spec (np_len X) (length y)) as [E'|_]; [congruence|eauto].
Qed.

Lemma gauss_jordan_length (cols : list nat) :
  forall (done todo res : list (aug_row A)),
    gauss_jordan cols done todo = Some res ->
    length res = length done + length cols.
Proof.
  induction cols as [|k cols IH]; intros done todo res E; cbn [gauss_jordan] in E.
  - injection E as <-. cbn. lia.
  - destruct (find_pivot k todo) as [[r rest]|]; [|discriminate].
    rewrite (IH _ _ _ E), length_app, length_map. cbn [length]. lia.
Qed.

Lemma linalg_inv_nrows (G B : matrix A) :
  linalg_inv G = Ok B -> nrows B = nrows G /\ ncols B = nrows G.
Proof.
  unfold linalg_inv. destruct (nrows G =? ncols G); [|discriminate].
  destruct (gauss_jordan _ _ _) as [res|] eqn:E; [|discriminate].
  intros E'. injection E' as <-.
  pose proof (gauss_jordan_length _ _ _ E) as L.
  rewrite length_seq in L. cbn [length Nat.add] in L.
  split; [|reflexivity]. unfold nrows at 1. cbn [rows].
  rewrite length_map. exact L.
Qed.

(** X9. After [fit_multiple] has returned on an [n]-by-[p] matrix, the
    coefficients are an array of [p] numbers, and [predict] of any
    matrix of [p] columns returns one prediction per row. *)
Theorem predict_after_fit_multiple
        (X : matrix A) (y : list A) (self model : LinearRegressor A) :
  fit_multiple (Arr2 X) y self = (Ok tt, model) ->
  (exists i cs, model = {| coefficients := Some (CArray cs);
                           intercept := Some i |}
                /\ length cs = ncols X) /\
  (forall M, ncols M = ncols X ->
             exists p, predict model (Arr2 M) = Ok (Arr1 p)
                       /\ length p = nrows M).
Proof.
  unfold fit_multiple, mbind, call.
  destruct (matmul _ _) as [G|] eqn:EG; [|discriminate].
  destruct (linalg_inv G) as [B|] eqn:EB; [|discriminate].
  destruct (matmul B _) as [BXt|] eqn:EX; [|discriminate].
  destruct (matvec BXt y) as [w|] eqn:Ew; [|discriminate].
  destruct w as [|i cs]; [discriminate|]. cbn. intros E. injection E as <-.
  assert (Lc : length cs = ncols X).
  { destruct (ncols_matmul _ _ EG) as (_ & HG).
    destruct (linalg_inv_nrows _ EB) as (HB & _).
    destruct (ncols_matmul _ _ EX) as (_ & HX).
    unfold matvec in Ew. destruct (ncols BXt =? length y); [|discriminate].
    injection Ew as Ew. apply (f_equal (@length A)) in Ew.
    rewrite length_map in Ew. fold (nrows BXt) in Ew.
    rewrite HX, HB, HG, nrows_transpose in Ew. cbn [c_ones ncols length] in Ew.
    lia. }
  split; [eauto|].
  intros M EM. cbn [predict coefficients intercept]. unfold ndarray_dot.
  rewrite EM, <- Lc, Nat.eqb_refl. cbn [rbind]. eexists. split; [reflexivity|].
  now rewrite !length_map.
Qed.

End Calls.

(* ================================================================= *)
(** ** Further properties of the simple regression, over [R] *)

Module Simple.
Import Exact Rows GaussJordan Multiple.
Local Open Scope R_scope.

(** The sums of a data set [(x, y)]. *)
Lemma map_snd_of (l : list (R * R)) (g : R -> R) :
  map (fun q => g (snd q)) l = map g (map snd l).
Proof. now rewrite map_map. Qed.

Lemma map_fst_of (l : list (R * R)) (g : R -> R) :
  map (fun q => g (fst q)) l = map g (map fst l).
Proof. now rewrite map_map. Qed.

Lemma Var_sums (xs : list R) :
  INR (length xs) <> 0 ->
  Spec.Var xs
  = (INR (length xs) * Spec.Sigma (map (fun x => x * x) xs)
     - Spec.Sigma xs * Spec.Sigma xs)
    / (INR (length xs) * INR (length xs)).
Proof.
  intros Hn. unfold Spec.Var, Spec.mean. rewrite Sigma_square_deviations.
  now field.
Qed.

Lemma Cov_sums (xs y : list R) :
  length xs = length y ->
  INR (length xs) <> 0 ->
  Spec.Cov xs y
  = (INR (length xs)
     * Spec.Sigma (map (fun p => fst p * snd p) (combine xs y))
     - Spec.Sigma xs * Spec.Sigma y)
    / (INR (length xs) * INR (length xs)).
Proof.
  intros E Hn. unfold Spec.Cov, Spec.mean. rewrite Sigma_deviations.
  rewrite map_fst_combine, map_snd_combine, length_combine by exact E.
  rewrite <- E, Nat.min_id. now field.
Qed.

Lemma Sigma_squares_nonneg {X} (f : X -> R) (l : list X) :
  0 <= Spec.Sigma (map (fun x => f x ^ 2) l).
Proof.
  unfold Spec.Sigma. induction l as [|x l IH]; cbn [map fold_right]; [lra|].
  pose proof (pow2_ge_0 (f x)). lra.
Qed.

Lemma Sigma_squares_zero {X} (f : X -> R) (l : list X) :
  Spec.Sigma (map (fun x => f x ^ 2) l) = 0 -> forall x, In x l -> f x = 0.
Proof.
  induction l as [|a l IH]; intros E x Hx; [destruct Hx|].
  pose proof (Sigma_squares_nonneg f l) as Hl.
  pose proof (pow2_ge_0 (f a)) as Ha.
  unfold Spec.Sigma in *. cbn [map fold_right] in E.
  destruct Hx as [<-|Hx].
  - assert (E2 : f a ^ 2 = 0) by lra. nra.
  - apply IH; [lra | exact Hx].
Qed.

Lemma Var_positive (xs : list R) : Spec.Var xs <> 0 -> 0 < Spec.Var xs.
Proof.
  intros HV. destruct (Var_nonzero HV) as (Hn & _).
  assert (Hp : 0 < INR (length xs)).
  { destruct xs; [cbn in Hn; lra|]. apply lt_0_INR. cbn. lia. }
  assert (0 <= Spec.Var xs); [|lra].
  unfold Spec.Var. apply Rmult_le_pos.
  - apply (Sigma_squares_nonneg (fun x => x - Spec.mean xs)).
  - left. now apply Rinv_0_lt_compat.
Qed.

Lemma TSS_positive (y : list R) : non_constant y -> 0 < Spec.TSS y.
Proof.
  intros (a & b & Ha & Hb & Hab).
  pose proof (Sigma_squares_nonneg (fun t => t - Spec.mean y) y) as Hge.
  change (0 <= Spec.TSS y) in Hge.
  destruct (Req_dec (Spec.TSS y) 0) as [E|N]; [|lra].
  exfalso. apply Hab.
  pose proof (@Sigma_squares_zero _ (fun t => t - Spec.mean y) y E) as Z.
  pose proof (Z a Ha). pose proof (Z b Hb). cbv beta in *. lra.
Qed.

Lemma non_constant_length (y : list R) : non_constant y -> (1 <= length y)%nat.
Proof. intros (a & _ & Ha & _). destruct y; [destruct Ha | cbn; lia]. Qed.

(** [evaluate_regression] in terms of the quantities of the
    specification. *)
Lemma evaluate_regression_R (y_true y_pred : list R) :
  length y_true = length y_pred ->
  (1 <= length y_true)%nat ->
  evaluate_regression y_true y_pred
  = Ok [("R2"%string, Spec.R2 y_true y_pred);
        ("RMSE"%string, Spec.RMSE y_true y_pred);
        ("MAE"%string, Spec.MAE y_true y_pred)].
Proof.
  intros E Hn. unfold evaluate_regression.
  rewrite (rss_spec _ _ E), tss_spec. cbn [rbind].
  rewrite broadcast2_same_length by exact E. cbn [rbind].
  destruct (length y_true) as [|n] eqn:En; [lia|]. cbn [py_inv_len rbind].
  unfold Spec.R2, Spec.RMSE, Spec.MAE. rewrite En.
  rewrite !np_sum_Sigma. unfold square. rewrite !map_map. unfold_scalar.
  repeat f_equal; apply Sigma_map_ext; intros; ring.
Qed.

(** [fit_simple] and [predict] on the training data, unfolded. *)
Lemma fit_simple_R (X y : list R) (self : LinearRegressor R) :
  length X = length y ->
  fit_simple (Arr1 X) y self
  = (Ok tt,
     {| coefficients := Some (CScalar (Spec.Cov X y / Spec.Var X));
        intercept := Some (Spec.mean y
                           - Spec.Cov X y / Spec.Var X * Spec.mean X) |}).
Proof.
  intros E. rewrite fit_simple_1d by exact E.
  now rewrite (line40_spec _ _ E), !np_mean_spec.
Qed.

Lemma mean_affine (a b : R) (X : list R) :
  INR (length X) <> 0 ->
  Spec.mean (map (fun x => a + b * x) X) = a + b * Spec.mean X.
Proof.
  intros Hn. unfold Spec.mean.
  rewrite length_map, Sigma_map_plus, Sigma_map_const, Sigma_map_scal, map_id.
  now field.
Qed.

Lemma Cov_affine (a b : R) (X : list R) :
  INR (length X) <> 0 ->
  Spec.Cov X (map (fun x => a + b * x) X) = b * Spec.Var X.
Proof.
  intros Hn. unfold Spec.Cov, Spec.Var. rewrite mean_affine by exact Hn.
  rewrite combine_map_r, map_map. cbn [fst snd].
  rewrite (Sigma_map_ext _ (fun x => b * (x - Spec.mean X) ^ 2))
    by (intros; ring).
  rewrite Sigma_map_scal. unfold Rdiv. ring.
Qed.

(** X10. On data that lie on a line [y = a + b x], with a predictor of
    nonzero variance, [fit_simple] finds the slope [b] and the intercept
    [a], and [predict] on the training predictor returns [y]. *)
Theorem fit_simple_recovers_line
        (X : list R) (a b : R) (self : LinearRegressor R) :
  Spec.Var X <> 0 ->
  let y := map (fun x => a + b * x) X in
  let model := {| coefficients := Some (CScalar b); intercept := Some a |} in
  fit_simple (Arr1 X) y self = (Ok tt, model) /\
  predict model (Arr1 X) = Ok (Arr1 y).
Proof.
  intros HV y model. destruct (Var_nonzero HV) as (Hn & _).
  split; [|reflexivity].
  rewrite fit_simple_R by (unfold y; now rewrite length_map).
  unfold y. rewrite Cov_affine, mean_affine by exact Hn. unfold model.
  f_equal. f_equal; do 2 f_equal; now field.
Qed.

(** The residuals [y - (i + k x)] of a line on a data set. *)
Lemma Sigma_residuals (l : list (R * R)) (i k : R) :
  Spec.Sigma (map (fun q => snd q - (i + k * fst q)) l)
  = Spec.Sigma (map snd l) - INR (length l) * i - k * Spec.Sigma (map fst l).
Proof.
  unfold Spec.Sigma. induction l as [|q l IH]; [cbn; ring|].
  cbn [map fold_right length]. rewrite IH, S_INR. ring.
Qed.

Lemma Sigma_x_residuals (l : list (R * R)) (i k : R) :
  Spec.Sigma (map (fun q => fst q * (snd q - (i + k * fst q))) l)
  = Spec.Sigma (map (fun q => fst q * snd q) l)
    - i * Spec.Sigma (map fst l)
    - k * Spec.Sigma (map (fun q => fst q * fst q) l).
Proof.
  unfold Spec.Sigma. induction l as [|q l IH]; [cbn; ring|].
  cbn [map fold_right]. rewrite IH. ring.
Qed.

Lemma Sigma_square_residuals (l : list (R * R)) (i k : R) :
  Spec.Sigma (map (fun q => (snd q - (i + k * fst q)) ^ 2) l)
  = Spec.Sigma (map (fun q => snd q * snd q) l)
    - 2 * i * Spec.Sigma (map snd l)
    - 2 * k * Spec.Sigma (map (fun q => fst q * snd q) l)
    + INR (length l) * i * i
    + 2 * i * k * Spec.Sigma (map fst l)
    + k * k * Spec.Sigma (map (fun q => fst q * fst q) l).
Proof.
  unfold Spec.Sigma. induction l as [|q l IH]; [cbn; ring|].
  cbn [map fold_right length]. rewrite IH, S_INR. ring.
Qed.

(** The pairs [(y, prediction)] and [(x, residual)] in terms of the
    pairs [(x, y)]. *)
Lemma combine_predictions (X y : list R) (f : R -> R) :
  combine y (map f X) = map (fun q => (snd q, f (fst q))) (combine X y).
Proof.
  revert y; induction X as [|x X IH]; intros [|t y]; cbn; try reflexivity.
  now rewrite IH.
Qed.

Lemma combine_with_pairs (X y : list R) (g : R * R -> R) :
  combine X (map g (combine X y))
  = map (fun q => (fst q, g q)) (combine X y).
Proof.
  revert y; induction X as [|x X IH]; intros [|t y]; cbn; try reflexivity.
  now rewrite IH.
Qed.

Lemma sums_of_pairs (X y : list R) :
  length X = length y ->
  Spec.Sigma (map fst (combine X y)) = Spec.Sigma X /\
  Spec.Sigma (map snd (combine X y)) = Spec.Sigma y /\
  Spec.Sigma (map (fun q => fst q * fst q) (combine X y))
  = Spec.Sigma (map (fun x => x * x) X) /\
  Spec.Sigma (map (fun q => snd q * snd q) (combine X y))
  = Spec.Sigma (map (fun t => t * t) y) /\
  INR (length (combine X y)) = INR (length X).
Proof.
  intros E.
  rewrite (map_fst_of _ (fun x => x * x)), (map_snd_of _ (fun t => t * t)).
  rewrite map_fst_combine, map_snd_combine, length_combine by exact E.
  rewrite <- E, Nat.min_id. auto.
Qed.

(** X11. The line that [fit_simple] fits satisfies the normal
    equations on its training data: the residuals of [predict] sum to
    zero, and so do their products with the predictor. *)
Theorem fit_simple_normal_equations
        (X y : list R) (self : LinearRegressor R) :
  length X = length y ->
  Spec.Var X <> 0 ->
  exists model p,
    fit_simple (Arr1 X) y self = (Ok tt, model) /\
    predict model (Arr1 X) = Ok (Arr1 p) /\
    let r := map (fun q => fst q - snd q) (combine y p) in
    Spec.Sigma r = 0 /\
    Spec.Sigma (map (fun q => fst q * snd q) (combine X r)) = 0.
Proof.
  intros E HV. destruct (Var_nonzero HV) as (Hn & HD).
  do 2 eexists. split; [apply fit_simple_R; exact E|]. split; [reflexivity|].
  cbv zeta. unfold_scalar.
  rewrite combine_predictions, map_map. cbn [fst snd].
  destruct (@sums_of_pairs X y E) as (S1 & S2 & S3 & _ & S5).
  split.
  - rewrite Sigma_residuals, S1, S2, S5.
    rewrite (@Var_sums X Hn), (@Cov_sums X y E Hn). unfold Spec.mean. rewrite <- E.
    now field.
  - rewrite combine_with_pairs, map_map. cbn [fst snd].
    rewrite Sigma_x_residuals, S1, S3.
    rewrite (@Var_sums X Hn), (@Cov_sums X y E Hn). unfold Spec.mean. rewrite <- E.
    now field.
Qed.

Lemma R2_algebra (n Sx Sy Sxx Sxy Syy : R) :
  n <> 0 -> n * Sxx - Sx * Sx <> 0 ->
  let k := (n * Sxy - Sx * Sy) / (n * n) / ((n * Sxx - Sx * Sx) / (n * n)) in
  let i := Sy / n - k * (Sx / n) in
  (Syy - 2 * (Sy / n) * Sy + n * (Sy / n) * (Sy / n))
  - (Syy - 2 * i * Sy - 2 * k * Sxy + n * i * i + 2 * i * k * Sx + k * k * Sxx)
  = (n * Sxy - Sx * Sy) ^ 2 / (n * (n * Sxx - Sx * Sx)).
Proof. intros Hn HD k i. unfold i, k. now field. Qed.

(** X12. On its own training data the fitted line explains part of
    the variance and no more than all of it: with a predictor of nonzero
    variance and a response that is not constant, the R2 that
    [evaluate_regression] gives to the predictions of [fit_simple] lies
    between 0 and 1. *)
Theorem fit_simple_R2_in_unit_interval
        (X y : list R) (self : LinearRegressor R) :
  length X = length y ->
  Spec.Var X <> 0 ->
  non_constant y ->
  exists model p r2 rmse mae,
    fit_simple (Arr1 X) y self = (Ok tt, model) /\
    predict model (Arr1 X) = Ok (Arr1 p) /\
    evaluate_regression y p
    = Ok [("R2"%string, r2); ("RMSE"%string, rmse); ("MAE"%string, mae)] /\
    0 <= r2 <= 1.
Proof.
  intros E HV HN. destruct (Var_nonzero HV) as (Hn & HD).
  pose proof (TSS_positive HN) as HT.
  do 5 eexists. split; [apply fit_simple_R; exact E|]. split; [reflexivity|].
  unfold_scalar. split.
  - apply evaluate_regression_R;
      [now rewrite length_map | now apply non_constant_length].
  - set (k := Spec.Cov X y / Spec.Var X).
    set (i := Spec.mean y - k * Spec.mean X).
    set (p := map (fun xi => i + k * xi) X).
    assert (H0 : 0 <= Spec.RSS y p)
      by apply (Sigma_squares_nonneg (fun q => fst q - snd q)).
    assert (HD' : 0 < INR (length X) * Spec.Sigma (map (fun x => x * x) X)
                      - Spec.Sigma X * Spec.Sigma X).
    { pose proof (Var_positive HV) as HVp. rewrite (@Var_sums X Hn) in HVp.
      assert (Hnn : 0 < INR (length X) * INR (length X)) by nra.
      apply (Rmult_lt_compat_r _ _ _ Hnn) in HVp.
      unfold Rdiv in HVp. rewrite Rmult_assoc, Rinv_l, Rmult_1_r in HVp by lra.
      lra. }
    assert (Hp : 0 < INR (length X)).
    { destruct X; [cbn in Hn; lra|]. apply lt_0_INR. cbn. lia. }
    assert (H1 : Spec.RSS y p <= Spec.TSS y).
    { assert (Ed : Spec.TSS y - Spec.RSS y p
                   = (INR (length X)
                      * Spec.Sigma (map (fun q => fst q * snd q) (combine X y))
                      - Spec.Sigma X * Spec.Sigma y) ^ 2
                     / (INR (length X)
                        * (INR (length X) * Spec.Sigma (map (fun x => x * x) X)
                           - Spec.Sigma X * Spec.Sigma X))).
      { unfold Spec.RSS, Spec.TSS, p.
        rewrite combine_predictions, map_map. cbn [fst snd].
        destruct (@sums_of_pairs X y E) as (S1 & S2 & S3 & S4 & S5).
        rewrite Sigma_square_residuals, Sigma_square_deviations.
        rewrite S1, S2, S3, S4, S5. unfold i, k.
        rewrite (@Var_sums X Hn), (@Cov_sums X y E Hn). unfold Spec.mean.
        rewrite <- E. apply R2_algebra; assumption. }
      assert (0 <= Spec.TSS y - Spec.RSS y p); [|lra].
      rewrite Ed. apply Rmult_le_pos; [apply pow2_ge_0|].
      left. apply Rinv_0_lt_compat. nra. }
    unfold Spec.R2. split.
    + assert (Spec.RSS y p / Spec.TSS y <= 1); [|lra].
      apply (Rmult_le_reg_r (Spec.TSS y)); [exact HT|].
      unfold Rdiv. rewrite Rmult_assoc, Rinv_l by lra. lra.
    + assert (0 <= Spec.RSS y p / Spec.TSS y); [|lra].
      apply Rmult_le_pos; [exact H0|]. left. now apply Rinv_0_lt_compat.
Qed.

Lemma combine_diag {X} (l : list X) : combine l l = map (fun t => (t, t)) l.
Proof. induction l as [|t l IH]; cbn; [reflexivity | now rewrite IH]. Qed.

(** X13. Predictions equal to the true values, these not all the
    same, get R2 = 1, RMSE = 0 and MAE = 0. *)
Theorem evaluate_regression_perfect (y : list R) :
  non_constant y ->
  evaluate_regression y y
  = Ok [("R2"%string, 1); ("RMSE"%string, 0); ("MAE"%string, 0)].
Proof.
  intros HN.
  rewrite evaluate_regression_R by (auto using non_constant_length).
  assert (ER : Spec.RSS y y = 0).
  { unfold Spec.RSS. rewrite combine_diag, map_map. cbn [fst snd].
    apply Sigma_zero. intros; ring. }
  unfold Spec.R2, Spec.RMSE, Spec.MAE. rewrite ER.
  rewrite combine_diag, map_map. cbn [fst snd].
  rewrite (@Sigma_zero _ (fun t => Rabs (t - t)) y)
    by (intros; now rewrite Rminus_diag, Rabs_R0).
  unfold Rdiv. rewrite !Rmult_0_l, Rmult_0_r, sqrt_0, Rminus_0_r.
  reflexivity.
Qed.

Lemma Sigma_shifted_squares {X} (f : X -> R) (l : list X) (x : R) :
  Spec.Sigma (map (fun a => (f a - x) ^ 2) l)
  = Spec.Sigma (map (fun a => f a ^ 2) l)
    - 2 * x * Spec.Sigma (map f l) + INR (length l) * x * x.
Proof.
  unfold Spec.Sigma. induction l as [|a l IH]; [cbn; ring|].
  cbn [map fold_right length]. rewrite IH, S_INR. ring.
Qed.

(** The square of a sum is at most the count times the sum of the
    squares. *)
Lemma square_of_sum {X} (f : X -> R) (l : list X) :
  Spec.Sigma (map f l) ^ 2
  <= INR (length l) * Spec.Sigma (map (fun a => f a ^ 2) l).
Proof.
  destruct l as [|a0 l0] eqn:El; [cbn; lra|]. rewrite <- El.
  assert (Hp : 0 < INR (length l))
    by (rewrite El; apply lt_0_INR; cbn; lia).
  pose proof (Sigma_squares_nonneg
                (fun a => f a - Spec.Sigma (map f l) / INR (length l)) l) as Hs.
  cbv beta in Hs. rewrite Sigma_shifted_squares in Hs.
  set (S := Spec.Sigma (map f l)) in *.
  set (Q := Spec.Sigma (map (fun a => f a ^ 2) l)) in *.
  set (n := INR (length l)) in *.
  assert (E : Q - 2 * (S / n) * S + n * (S / n) * (S / n) = Q - S ^ 2 / n)
    by (field; lra).
  rewrite E in Hs.
  assert (S ^ 2 / n <= Q) by lra.
  apply (Rmult_le_compat_l n) in H; [|lra].
  replace (n * (S ^ 2 / n)) with (S ^ 2) in H by (field; lra). exact H.
Qed.

Lemma Sigma_nonneg {X} (f : X -> R) (l : list X) :
  (forall x, 0 <= f x) -> 0 <= Spec.Sigma (map f l).
Proof.
  intros Hf. unfold Spec.Sigma.
  induction l as [|x l IH]; cbn [map fold_right]; [lra|].
  pose proof (Hf x). lra.
Qed.

(** X14. For arrays of one length, the true values not all the same,
    the three metrics are ordered: R2 is at most 1, and MAE lies between
    0 and RMSE. *)
Theorem evaluate_regression_bounds (y_true y_pred : list R) :
  length y_true = length y_pred ->
  non_constant y_true ->
  exists r2 rmse mae,
    evaluate_regression y_true y_pred
    = Ok [("R2"%string, r2); ("RMSE"%string, rmse); ("MAE"%string, mae)] /\
    r2 <= 1 /\ 0 <= mae <= rmse.
Proof.
  intros E HN. pose proof (non_constant_length HN) as Hn.
  pose proof (TSS_positive HN) as HT.
  do 3 eexists. split; [now apply evaluate_regression_R|].
  set (l := combine y_true y_pred).
  assert (Ll : length l = length y_true)
    by (unfold l; rewrite length_combine, <- E; apply Nat.min_id).
  assert (Hp : 0 < INR (length y_true)) by (apply lt_0_INR; lia).
  assert (H0 : 0 <= Spec.RSS y_true y_pred)
    by apply (Sigma_squares_nonneg (fun q => fst q - snd q)).
  assert (HS : 0 <= Spec.Sigma (map (fun q => Rabs (fst q - snd q)) l))
    by (apply Sigma_nonneg; intros; apply Rabs_pos).
  split; [|split].
  - unfold Spec.R2.
    assert (0 <= Spec.RSS y_true y_pred / Spec.TSS y_true); [|lra].
    apply Rmult_le_pos; [exact H0|]. left. now apply Rinv_0_lt_compat.
  - unfold Spec.MAE. fold l. apply Rmult_le_pos; [|exact HS].
    unfold Rdiv. rewrite Rmult_1_l. left. now apply Rinv_0_lt_compat.
  - unfold Spec.MAE, Spec.RMSE, Spec.RSS. fold l.
    set (S := Spec.Sigma (map (fun q => Rabs (fst q - snd q)) l)) in *.
    set (Q := Spec.Sigma (map (fun q => (fst q - snd q) ^ 2) l)).
    set (n := INR (length y_true)) in *.
    assert (HC : S ^ 2 <= n * Q).
    { pose proof (square_of_sum (fun q => Rabs (fst q - snd q)) l) as C.
      rewrite Ll in C. fold S n in C.
      rewrite (Sigma_map_ext (fun q => Rabs (fst q - snd q) ^ 2)
                 (fun q => (fst q - snd q) ^ 2)) in C
        by (intros; apply pow2_abs).
      exact C. }
    assert (Hm : 0 <= 1 / n * S).
    { apply Rmult_le_pos; [|exact HS]. unfold Rdiv. rewrite Rmult_1_l.
      left. now apply Rinv_0_lt_compat. }
    rewrite <- (sqrt_square (1 / n * S)) by exact Hm.
    apply sqrt_le_1_alt.
    replace (1 / n * S * (1 / n * S)) with (S ^ 2 / (n * n)) by (field; lra).
    replace (Q / n) with (n * Q / (n * n)) by (field; lra).
    unfold Rdiv. apply Rmult_le_compat_r; [|exact HC].
    left. apply Rinv_0_lt_compat. nra.
Qed.

Lemma combine_map_snd (X y : list R) (g : R -> R) :
  combine X (map g y) = map (fun q => (fst q, g (snd q))) (combine X y).
Proof.
  revert y; induction X as [|x X IH]; intros [|t y]; cbn; try reflexivity.
  now rewrite IH.
Qed.

Lemma combine_map_fst (X y : list R) (g : R -> R) :
  combine (map g X) y = map (fun q => (g (fst q), snd q)) (combine X y).
Proof.
  revert y; induction X as [|x X IH]; intros [|t y]; cbn; try reflexivity.
  now rewrite IH.
Qed.

Lemma Var_shift (c : R) (X : list R) : Spec.Var (add_scalar c X) = Spec.Var X.
Proof.
  destruct X as [|x X]; [reflexivity|].
  unfold Spec.Var. rewrite mean_shift by discriminate.
  unfold add_scalar. rewrite map_map, length_map. unfold_scalar.
  f_equal. apply Sigma_map_ext. intros; ring.
Qed.

Lemma Cov_shift_response (c : R) (X y : list R) :
  y <> [] -> Spec.Cov X (add_scalar c y) = Spec.Cov X y.
Proof.
  intros Hy. unfold Spec.Cov. rewrite mean_shift by exact Hy.
  unfold add_scalar. rewrite combine_map_snd, map_map. unfold_scalar.
  f_equal. apply Sigma_map_ext. intros; cbn [fst snd]; ring.
Qed.

Lemma Cov_shift_predictor (c : R) (X y : list R) :
  X <> [] -> Spec.Cov (add_scalar c X) y = Spec.Cov X y.
Proof.
  intros HX. unfold Spec.Cov. rewrite mean_shift by exact HX.
  unfold add_scalar. rewrite combine_map_fst, map_map, length_map. unfold_scalar.
  f_equal. apply Sigma_map_ext. intros; cbn [fst snd]; ring.
Qed.

(** X15. Adding a constant [c] to the response leaves the slope that
    [fit_simple] finds and adds [c] to the intercept; adding it to the
    predictor leaves the slope and takes [slope * c] off the intercept. *)
Theorem fit_simple_translation
        (X y : list R) (c : R) (self : LinearRegressor R) :
  length X = length y ->
  Spec.Var X <> 0 ->
  exists k i,
    fit_simple (Arr1 X) y self
    = (Ok tt, {| coefficients := Some (CScalar k); intercept := Some i |}) /\
    fit_simple (Arr1 X) (add_scalar c y) self
    = (Ok tt, {| coefficients := Some (CScalar k);
                 intercept := Some (i + c) |}) /\
    fit_simple (Arr1 (add_scalar c X)) y self
    = (Ok tt, {| coefficients := Some (CScalar k);
                 intercept := Some (i - k * c) |}).
Proof.
  intros E HV. destruct (Var_nonzero HV) as (Hn & _).
  assert (HX : X <> []) by (intros ->; cbn in Hn; lra).
  assert (Hy : y <> []) by (intros ->; destruct X; [congruence|discriminate E]).
  do 2 eexists. split; [apply fit_simple_R; exact E|]. split.
  - rewrite fit_simple_R by (unfold add_scalar; now rewrite length_map).
    rewrite Cov_shift_response, mean_shift by exact Hy.
    f_equal. f_equal. f_equal. ring.
  - rewrite fit_simple_R by (unfold add_scalar; now rewrite length_map).
    rewrite Cov_shift_predictor, Var_shift, mean_shift by exact HX.
    f_equal. f_equal. f_equal. ring.
Qed.

(** X22. A prediction of length one is broadcast against the true
    values: the mean of [y_true], given as the single prediction, gets
    R2 = 0 when the true values are not all the same. *)
Theorem evaluate_regression_mean_prediction (y : list R) :
  non_constant y ->
  exists rmse mae,
    evaluate_regression y [Spec.mean y]
    = Ok [("R2"%string, 0); ("RMSE"%string, rmse); ("MAE"%string, mae)].
Proof.
  intros HN. pose proof (TSS_positive HN) as HT. rewrite <- tss_spec in HT.
  destruct HN as (a & b & Ha & Hb & Hab).
  destruct y as [|t [|t' y]]; [destruct Ha| |].
  - exfalso. destruct Ha as [<-|[]], Hb as [<-|[]]. now apply Hab.
  - unfold evaluate_regression, rss. unfold broadcast2 at 1 2 3.
    cbn [length Nat.eqb rbind py_inv_len].
    do 2 eexists. f_equal. f_equal. f_equal.
    fold (square (map (fun x => x - Spec.mean (t :: t' :: y)) (t :: t' :: y))).
    rewrite <- np_mean_spec.
    change (np_sum (square (map (fun x => s_sub x (np_mean (t :: t' :: y)))
                                (t :: t' :: y))))
      with (tss (t :: t' :: y)).
    unfold_scalar. field. lra.
Qed.

End Simple.

(* ================================================================= *)
(** ** Further properties of the multiple regression, over [R] *)

Module Normal.
Import Exact Rows GaussJordan Multiple.
Local Open Scope R_scope.

Lemma wf_c_ones (X : matrix R) : wf_matrix X -> wf_matrix (c_ones (Arr2 X)).
Proof.
  unfold wf_matrix. cbn [c_ones rows ncols]. intros Hwf.
  apply Forall_forall. intros r Hr. apply in_map_iff in Hr.
  destruct Hr as (r0 & <- & Hr0). cbn [length]. f_equal.
  exact (proj1 (Forall_forall _ _) Hwf r0 Hr0).
Qed.

(** The Gram matrix of a design matrix always exists; its rows are the
    rows of [X'^T] times [X']. *)
Lemma gram_Ok (X : matrix R) :
  matmul (transpose (c_ones (Arr2 X))) (c_ones (Arr2 X))
  = Ok (Matrix (S (ncols X))
          (map (fun c => map (dot c) (rows (transpose (c_ones (Arr2 X)))))
               (rows (transpose (c_ones (Arr2 X)))))).
Proof.
  unfold matmul. cbn [transpose ncols]. now rewrite Nat.eqb_refl.
Qed.

Lemma gram_row_times (X : matrix R) (c w : list R) :
  wf_matrix X ->
  dot (map (dot c) (rows (transpose (c_ones (Arr2 X))))) w
  = dot c (map (fun g => dot g w) (rows (c_ones (Arr2 X)))).
Proof. intros Hwf. apply dot_assoc, wf_c_ones, Hwf. Qed.

(** [G (B v) = v] and [B (G v) = v] for an inverse [B] of [G]. *)
Lemma identity_times (n : nat) (v : list R) :
  length v = n ->
  map (fun u => dot u v) (map (unit_row n) (seq 0 n)) = v.
Proof.
  intros L. rewrite map_map.
  rewrite (map_ext_in _ (fun j => nth j v 0)).
  - subst n. apply map_nth_seq.
  - intros j Hj. apply in_seq in Hj. apply dot_unit_row; [exact L|lia].
Qed.

Lemma product_times (M N : matrix R) (v : list R) :
  wf_matrix N ->
  map (fun u => dot u v)
      (map (fun r => map (dot r) (rows (transpose N))) (rows M))
  = map (fun r => dot r (map (fun b => dot b v) (rows N))) (rows M).
Proof.
  intros Hwf. rewrite map_map. apply map_ext. intros r. now apply dot_assoc.
Qed.

Lemma inverse_times (G B : matrix R) (v : list R) :
  Spec.is_inverse G B ->
  length v = nrows G ->
  map (fun g => dot g (map (fun b => dot b v) (rows B))) (rows G) = v /\
  map (fun b => dot b (map (fun g => dot g v) (rows G))) (rows B) = v.
Proof.
  intros (_ & HwG & _ & _ & HwB & HGB & HBG) L.
  apply matmul_Ok in HGB. destruct HGB as (_ & E1).
  apply matmul_Ok in HBG. destruct HBG as (_ & E2).
  apply (f_equal rows) in E1. apply (f_equal rows) in E2.
  unfold identity in E1, E2. cbn [rows] in E1, E2.
  split.
  - rewrite <- (product_times G v HwB), <- E1. now apply identity_times.
  - rewrite <- (product_times B v HwG), <- E2. now apply identity_times.
Qed.

Lemma dot_sub_r (c y p : list R) :
  length y = length p ->
  dot c (map (fun q => fst q - snd q) (combine y p)) = dot c y - dot c p.
Proof.
  revert y p; induction c as [|a c IH]; intros y p E.
  - rewrite !dot_nil_l. ring.
  - destruct y as [|t y], p as [|u p]; try discriminate E; cbn [combine map].
    + rewrite !dot_nil_r. ring.
    + rewrite !dot_cons, IH by (now injection E). cbn [fst snd]. ring.
Qed.

(** The predictions on the training matrix are [X' w], for [w] the
    intercept followed by the coefficients. *)
Lemma predict_design (X : matrix R) (w : list R) :
  length w = S (ncols X) ->
  predict {| coefficients := Some (CArray (tl w)); intercept := Some (hd 0 w) |}
          (Arr2 X)
  = Ok (Arr1 (map (fun g => dot g w) (rows (c_ones (Arr2 X))))).
Proof.
  intros L. destruct w as [|i cs]; [discriminate L|]. cbn [hd tl] in *.
  cbn [predict coefficients intercept]. unfold ndarray_dot.
  injection L as L. rewrite L, Nat.eqb_refl. cbn [rbind c_ones rows].
  rewrite !map_map. do 2 f_equal. apply map_ext. intros r.
  rewrite dot_cons. unfold_scalar. ring.
Qed.

(** X16. The fit of [fit_multiple] satisfies the normal equations on
    its training data: every column of the design matrix, the column of
    ones among them, is orthogonal to the residuals of [predict]; so the
    residuals sum to zero. *)
Theorem fit_multiple_residuals_orthogonal
        (X : matrix R) (y : list R) (G B : matrix R)
        (self : LinearRegressor R) :
  wf_matrix X ->
  length y = nrows X ->
  matmul (transpose (c_ones (Arr2 X))) (c_ones (Arr2 X)) = Ok G ->
  Spec.is_inverse G B ->
  exists model p,
    fit_multiple (Arr2 X) y self = (Ok tt, model) /\
    predict model (Arr2 X) = Ok (Arr1 p) /\
    forall c, In c (rows (transpose (c_ones (Arr2 X)))) ->
              dot c (map (fun q => fst q - snd q) (combine y p)) = 0.
Proof.
  intros Hwf Ly HG HB.
  destruct (@fit_multiple_solves X y G B self Ly HG HB) as (Lw & Hfit).
  cbv zeta in Lw, Hfit.
  assert (EG : rows G
               = map (fun c => map (dot c) (rows (transpose (c_ones (Arr2 X)))))
                     (rows (transpose (c_ones (Arr2 X))))).
  { rewrite gram_Ok in HG. now injection HG as <-. }
  set (Xt := transpose (c_ones (Arr2 X))) in *.
  set (v := map (fun g => dot g y) (rows Xt)) in *.
  set (w := map (fun b => dot b v) (rows B)) in *.
  do 2 eexists. split; [exact Hfit|]. split; [now apply predict_design|].
  intros c Hc.
  rewrite dot_sub_r
    by (rewrite length_map; fold (nrows (c_ones (Arr2 X)));
        now rewrite nrows_c_ones).
  assert (Lv : length v = nrows G).
  { unfold v, nrows. now rewrite EG, !length_map. }
  destruct (inverse_times v HB Lv) as (E1 & _). fold w in E1.
  rewrite EG, map_map in E1. unfold v in E1.
  pose proof (proj1 (@map_ext_in_iff _ _ _ _ _) E1 c Hc) as Ec. cbv beta in Ec.
  unfold Xt in Ec. rewrite (gram_row_times c w Hwf) in Ec. lra.
Qed.

(** X17. On noiseless data [y = X' w0], with an invertible [X'^T X'],
    [fit_multiple] finds [w0]: its first entry as the intercept, the
    others as the coefficients; and [predict] on the training matrix
    returns [y]. *)
Theorem fit_multiple_recovers_exact
        (X : matrix R) (w0 : list R) (G B : matrix R)
        (self : LinearRegressor R) :
  wf_matrix X ->
  length w0 = S (ncols X) ->
  matmul (transpose (c_ones (Arr2 X))) (c_ones (Arr2 X)) = Ok G ->
  Spec.is_inverse G B ->
  let y := map (fun g => dot g w0) (rows (c_ones (Arr2 X))) in
  let model := {| coefficients := Some (CArray (tl w0));
                  intercept := Some (hd 0 w0) |} in
  fit_multiple (Arr2 X) y self = (Ok tt, model) /\
  predict model (Arr2 X) = Ok (Arr1 y).
Proof.
  intros Hwf L0 HG HB y model.
  assert (Ly : length y = nrows X)
    by (unfold y; rewrite length_map; apply nrows_c_ones).
  destruct (@fit_multiple_solves X y G B self Ly HG HB) as (_ & Hfit).
  cbv zeta in Hfit.
  assert (EG : rows G = map (fun c => map (dot c) (rows (transpose (c_ones (Arr2 X)))))
                            (rows (transpose (c_ones (Arr2 X))))).
  { rewrite gram_Ok in HG. now injection HG as <-. }
  assert (Ev : map (fun g => dot g y) (rows (transpose (c_ones (Arr2 X))))
               = map (fun g => dot g w0) (rows G)).
  { rewrite EG, map_map. apply map_ext. intros c.
    unfold y. symmetry. now apply gram_row_times. }
  assert (LG : length w0 = nrows G).
  { unfold nrows. rewrite EG, length_map. fold (nrows (transpose (c_ones (Arr2 X)))).
    unfold transpose, nrows. cbn [rows c_ones ncols].
    now rewrite length_map, length_seq. }
  destruct (inverse_times w0 HB LG) as (_ & E2).
  rewrite Ev, E2 in Hfit.
  split; [exact Hfit | now apply predict_design].
Qed.

(** A nonzero vector that the design matrix sends to zero makes the
    Gram matrix rank-deficient. *)
Lemma gram_rank_deficient (X : matrix R) (v : list R) :
  wf_matrix X ->
  length v = S (ncols X) ->
  (exists c, nth c v 0 <> 0) ->
  (forall r, In r (rows (c_ones (Arr2 X))) -> dot r v = 0) ->
  Spec.rank_deficient
    (Matrix (S (ncols X))
       (map (fun c => map (dot c) (rows (transpose (c_ones (Arr2 X)))))
            (rows (transpose (c_ones (Arr2 X)))))).
Proof.
  intros Hwf Lv Hv Hz. exists v. cbn [ncols rows]. split; [exact Lv|].
  split; [exact Hv|]. intros g Hg. apply in_map_iff in Hg.
  destruct Hg as (c & <- & _). rewrite (gram_row_times c v Hwf).
  rewrite (map_ext_in _ (fun _ => 0)) by exact Hz.
  rewrite dot_comm. apply dot_zeros_l.
Qed.

(** X19. Without observations, [fit_multiple] raises the
    singular-matrix error: the Gram matrix is the zero matrix. *)
Theorem fit_multiple_no_rows (p : nat) (y : list R) (self : LinearRegressor R) :
  fit_multiple (Arr2 (Matrix p [])) y self = (Raise singular_matrix, self).
Proof.
  apply (@fit_multiple_singular (Matrix p []) y _ self (gram_Ok (Matrix p []))).
  apply (@gram_rank_deficient (Matrix p []) (unit_row (S p) 0)).
  - constructor.
  - unfold unit_row. now rewrite length_map, length_seq.
  - exists 0%nat. rewrite nth_unit_row by lia. unfold delta. cbn. lra.
  - intros r [].
Qed.

(** X20. A feature that is zero in every observation makes
    [fit_multiple] raise the singular-matrix error, whatever [y], and
    the object is kept: the Gram matrix has a row and a column of
    zeros, and the elimination meets a pivot that is exactly zero. *)
Theorem fit_multiple_zero_feature
        (X : matrix R) (j : nat) (y : list R) (self : LinearRegressor R) :
  wf_matrix X ->
  (j < ncols X)%nat ->
  (forall r, In r (rows X) -> nth j r 0 = 0) ->
  fit_multiple (Arr2 X) y self = (Raise singular_matrix, self).
Proof.
  intros Hwf Hj Hz.
  apply (@fit_multiple_singular X y _ self (gram_Ok X)).
  apply (@gram_rank_deficient X (unit_row (S (ncols X)) (S j)));
    [exact Hwf| | |].
  - unfold unit_row. now rewrite length_map, length_seq.
  - exists (S j). rewrite nth_unit_row by lia. unfold delta.
    rewrite Nat.eqb_refl. lra.
  - intros r' Hr'. cbn [c_ones rows] in Hr'. apply in_map_iff in Hr'.
    destruct Hr' as (r & <- & Hr).
    assert (Lr : length r = ncols X)
      by exact (proj1 (Forall_forall _ _) Hwf r Hr).
    rewrite dot_comm, dot_unit_row by (cbn [length]; lia).
    cbn [nth]. exact (Hz r Hr).
Qed.

End Normal.

(* ================================================================= *)
(** ** [anscombe_quartet] *)

Section Quartet.
Context {A : Type} `{Scalar A}.

Lemma unique_In (l : list string) (d : string) : In d (unique l) <-> In d l.
Proof.
  induction l as [|s l IH]; cbn [unique In]; [tauto|].
  rewrite filter_In, IH. destruct (String.eqb_spec d s) as [->|N]; cbn.
  - split; auto.
  - split; [intros [E|[Hd _]]; auto | intros [E|Hd]; auto].
Qed.

Lemma unique_NoDup (l : list string) : NoDup (unique l).
Proof.
  induction l as [|s l IH]; cbn [unique]; constructor.
  - rewrite filter_In. intros (_ & E). now rewrite String.eqb_refl in E.
  - now apply NoDup_filter.
Qed.

Lemma select_nonempty (anscombe : list (observation A)) (d : string) :
  In d (map dataset anscombe) -> select anscombe d <> [].
Proof.
  intros Hd. apply in_map_iff in Hd. destruct Hd as (r & <- & Hr).
  assert (Hs : In r (select anscombe (dataset r)))
    by (apply filter_In; split; [exact Hr | apply String.eqb_refl]).
  intros E. now rewrite E in Hs.
Qed.

Lemma dict_set_fresh {V} (m : list (string * V)) (d : string) (v : V) :
  ~ In d (map fst m) -> dict_set m d v = m ++ [(d, v)].
Proof.
  induction m as [|[k u] m IH]; cbn [dict_set map fst In app]; intros N;
    [reflexivity|].
  destruct (String.eqb_spec k d) as [->|_]; [tauto|].
  rewrite IH by tauto. reflexivity.
Qed.

(** On a data set of the frame, every call of the loop body returns. *)
Lemma metrics_of_Ok (anscombe : list (observation A)) (d : string) :
  In d (map dataset anscombe) ->
  exists r q t,
    metrics_of anscombe d
    = Ok [("R2"%string, r); ("RMSE"%string, q); ("MAE"%string, t)].
Proof.
  intros Hd. pose proof (select_nonempty anscombe d Hd) as Hs.
  unfold metrics_of, model_of. cbn [predict coefficients intercept rbind].
  unfold evaluate_regression_nd, nd_sub.
  rewrite broadcast2_same_length by (now rewrite !length_map).
  cbn [rbind]. rewrite length_map.
  destruct (select anscombe d) as [|r0 l]; [congruence|].
  cbn [length py_inv_len rbind]. eauto.
Qed.

Lemma quartet_body_returns (anscombe : list (observation A)) (d : string)
      (models : list (string * LinearRegressor A)) (a b c : list A) :
  In d (map dataset anscombe) ->
  quartet_body anscombe models
    [("R2"%string, a); ("RMSE"%string, b); ("MAE"%string, c)] d
  = Returns (dict_set models d (model_of anscombe d),
             [("R2"%string, a ++ [metric_of anscombe "R2" d]);
              ("RMSE"%string, b ++ [metric_of anscombe "RMSE" d]);
              ("MAE"%string, c ++ [metric_of anscombe "MAE" d])]).
Proof.
  intros Hd. destruct (metrics_of_Ok anscombe d Hd) as (r & q & t & Em).
  unfold metric_of. rewrite Em. unfold metrics_of in Em.
  unfold quartet_body. rewrite fit_simple_1d by (now rewrite !length_map).
  fold (model_of anscombe d).
  destruct (predict (model_of anscombe d) _) as [y_pred|]; [|discriminate Em].
  cbn [rbind] in Em. cbn [of_result obind]. rewrite Em. reflexivity.
Qed.

Lemma quartet_loop_returns (anscombe : list (observation A)) :
  forall (ds : list string) (models : list (string * LinearRegressor A))
         (a b c : list A),
    NoDup ds ->
    (forall d, In d ds -> In d (map dataset anscombe)) ->
    (forall d, In d ds -> ~ In d (map fst models)) ->
    quartet_loop anscombe ds models
      [("R2"%string, a); ("RMSE"%string, b); ("MAE"%string, c)]
    = Returns (models ++ map (fun d => (d, model_of anscombe d)) ds,
               [("R2"%string, a ++ map (metric_of anscombe "R2") ds);
                ("RMSE"%string, b ++ map (metric_of anscombe "RMSE") ds);
                ("MAE"%string, c ++ map (metric_of anscombe "MAE") ds)]).
Proof.
  induction ds as [|d ds IH]; intros models a b c Hnd Hin Hfresh.
  - cbn [quartet_loop map]. now rewrite !app_nil_r.
  - inversion Hnd as [|? ? Hd Hnd']; subst.
    cbn [quartet_loop]. rewrite quartet_body_returns by (apply Hin; now left).
    cbn [obind fst snd].
    rewrite dict_set_fresh by (apply Hfresh; now left).
    rewrite IH; [| exact Hnd' | intros; apply Hin; now right |].
    + cbn [map]. now rewrite <- !app_assoc.
    + intros d' Hd'. rewrite map_app, in_app_iff. cbn [map fst In].
      intros [Hm|[E|[]]]; [exact (Hfresh d' (or_intror Hd') Hm)|].
      subst d'. exact (Hd Hd').
Qed.

(** X21. [anscombe_quartet] raises on no data frame.  It returns the
    frame, the names of the data sets in the order of their first row,
    one model per data set in that order (the fit of [fit_simple] on the
    rows of that data set), and under each of the keys R2, RMSE, MAE the
    metrics of the data sets in the same order. *)
Theorem anscombe_quartet_returns (anscombe : list (observation A)) :
  let datasets := unique (map dataset anscombe) in
  anscombe_quartet anscombe
  = Returns (anscombe, datasets,
             map (fun d => (d, model_of anscombe d)) datasets,
             [("R2"%string, map (metric_of anscombe "R2") datasets);
              ("RMSE"%string, map (metric_of anscombe "RMSE") datasets);
              ("MAE"%string, map (metric_of anscombe "MAE") datasets)]).
Proof.
  intros datasets. unfold anscombe_quartet. fold datasets.
  rewrite quartet_loop_returns.
  - reflexivity.
  - apply unique_NoDup.
  - intros d Hd. now apply unique_In.
  - intros d _ [].
Qed.

End Quartet.

(* ================================================================= *)
(** ** The further properties on concrete data *)

Module MoreOnFloats.
Import PrimFloat.
Local Open Scope float_scope.

Lemma fit_simple_multi_feature_raises_witness :
  fit_simple (Arr2 (Matrix 2 [[1; 2]; [3; 4]])) [2; 4] LinearRegressor_init
  = (Raise concat_error, LinearRegressor_init).
Proof.
  apply fit_simple_multi_feature_raises.
  - repeat constructor.
  - cbn. lia.
  - discriminate.
  - reflexivity.
Defined.

Lemma predict_after_fit_simple_witness :
  exists model,
    fit_simple (Arr1 [1; 2; 3; 4]) [2; 4; 6; 8] LinearRegressor_init
    = (Ok tt, model) /\
    exists out,
      predict model (Arr2 (Matrix 2 [[1; 2]; [3; 4]])) = Ok out /\
      np_shape out = [2; 2]%nat.
Proof.
  exists {| coefficients := Some (CScalar 2); intercept := Some 0 |}.
  split; [reflexivity|].
  exact (@predict_after_fit_simple float _ (Arr1 [1; 2; 3; 4]) [2; 4; 6; 8]
           LinearRegressor_init
           {| coefficients := Some (CScalar 2); intercept := Some 0 |}
           (Arr2 (Matrix 2 [[1; 2]; [3; 4]])) eq_refl).
Defined.

Lemma predict_array_coefficients_witness :
  predict {| coefficients := Some (CArray [2; -3]); intercept := Some 1 |}
          (Arr2 (Matrix 3 [[1; 2; 3]]))
  = Raise shape_error /\
  predict {| coefficients := Some (CArray [2; -3]); intercept := Some 1 |}
          (Arr1 [1; 1])
  = Ok (Arr1 [3; -2]) /\
  predict {| coefficients := Some (CArray [2; -3]); intercept := Some 1 |}
          (Arr1 [1; 1; 1])
  = Raise broadcast_error.
Proof.
  destruct (@predict_array_coefficients float _
              {| coefficients := Some (CArray [2; -3]); intercept := Some 1 |}
              [2; -3] 1 eq_refl eq_refl) as (H1 & H2 & H3).
  split; [|split].
  - apply H1. discriminate.
  - rewrite (H2 [1; 1] eq_refl). reflexivity.
  - apply H3; discriminate.
Defined.

Lemma fit_multiple_length_mismatch_witness :
  exists e,
    fit_multiple (Arr2 (Matrix 1 [[1]; [2]; [4]])) [1; 2] LinearRegressor_init
    = (Raise e, LinearRegressor_init).
Proof. apply fit_multiple_length_mismatch. discriminate. Defined.

End MoreOnFloats.

Module MoreOnReals.
Import Exact Multiple Simple Normal.
Local Open Scope R_scope.

Ltac reals := repeat (first [reflexivity | apply (f_equal2 cons); [lra|]]).
Ltac real_rows := repeat (first [reflexivity | apply (f_equal2 cons); [reals|]]).
Ltac spec_sums := unfold Spec.Cov, Spec.Var, Spec.mean, Spec.Sigma;
                  cbn [map fold_right length INR combine fst snd].

Lemma Var_1234 : Spec.Var [1; 2; 3; 4] <> 0.
Proof. spec_sums. lra. Qed.

Lemma non_constant_2468 : non_constant [2; 4; 6; 8].
Proof. exists 2, 4. cbn [In]. repeat split; auto. lra. Qed.

(** The design of four observations of two features, its Gram matrix
    and the inverse of it. *)
Lemma square_design_gram :
  matmul (transpose (c_ones (Arr2 (Matrix 2 [[0; 0]; [1; 0]; [0; 1]; [1; 1]]))))
         (c_ones (Arr2 (Matrix 2 [[0; 0]; [1; 0]; [0; 1]; [1; 1]])))
  = Ok (Matrix 3 [[4; 2; 2]; [2; 2; 1]; [2; 1; 2]]).
Proof. vm_compute. do 2 f_equal. real_rows. Qed.

Lemma square_design_inverse :
  Spec.is_inverse (Matrix 3 [[4; 2; 2]; [2; 2; 1]; [2; 1; 2]])
                  (Matrix 3 [[3/4; -1/2; -1/2]; [-1/2; 1; 0]; [-1/2; 0; 1]]).
Proof.
  unfold Spec.is_inverse.
  split; [reflexivity|]. split; [repeat constructor|].
  split; [reflexivity|]. split; [reflexivity|].
  split; [repeat constructor|].
  split; vm_compute; do 2 f_equal; real_rows.
Qed.

Lemma fit_simple_recovers_line_witness :
  fit_simple (Arr1 [1; 2; 3; 4]) (map (fun x => 1 + 2 * x) [1; 2; 3; 4])
             LinearRegressor_init
  = (Ok tt, {| coefficients := Some (CScalar 2); intercept := Some 1 |}) /\
  predict {| coefficients := Some (CScalar 2); intercept := Some 1 |}
          (Arr1 [1; 2; 3; 4])
  = Ok (Arr1 (map (fun x => 1 + 2 * x) [1; 2; 3; 4])).
Proof.
  exact (@fit_simple_recovers_line [1; 2; 3; 4] 1 2 LinearRegressor_init Var_1234).
Defined.

Lemma fit_simple_normal_equations_witness :
  exists model p,
    fit_simple (Arr1 [1; 2; 3; 4]) [2; 4; 6; 9] LinearRegressor_init
    = (Ok tt, model) /\
    predict model (Arr1 [1; 2; 3; 4]) = Ok (Arr1 p) /\
    let r := map (fun q => fst q - snd q) (combine [2; 4; 6; 9] p) in
    Spec.Sigma r = 0 /\
    Spec.Sigma (map (fun q => fst q * snd q) (combine [1; 2; 3; 4] r)) = 0.
Proof.
  exact (@fit_simple_normal_equations [1; 2; 3; 4] [2; 4; 6; 9]
           LinearRegressor_init eq_refl Var_1234).
Defined.

Lemma fit_simple_R2_in_unit_interval_witness :
  exists model p r2 rmse mae,
    fit_simple (Arr1 [1; 2; 3; 4]) [2; 4; 6; 8] LinearRegressor_init
    = (Ok tt, model) /\
    predict model (Arr1 [1; 2; 3; 4]) = Ok (Arr1 p) /\
    evaluate_regression [2; 4; 6; 8] p
    = Ok [("R2"%string, r2); ("RMSE"%string, rmse); ("MAE"%string, mae)] /\
    0 <= r2 <= 1.
Proof.
  exact (@fit_simple_R2_in_unit_interval [1; 2; 3; 4] [2; 4; 6; 8]
           LinearRegressor_init eq_refl Var_1234 non_constant_2468).
Defined.

Lemma evaluate_regression_perfect_witness :
  evaluate_regression [2; 4; 6; 8] [2; 4; 6; 8]
  = Ok [("R2"%string, 1); ("RMSE"%string, 0); ("MAE"%string, 0)].
Proof. exact (@evaluate_regression_perfect [2; 4; 6; 8] non_constant_2468). Defined.

Lemma evaluate_regression_bounds_witness :
  exists r2 rmse mae,
    evaluate_regression [2; 4; 6; 8] [2; 4; 6; 9]
    = Ok [("R2"%string, r2); ("RMSE"%string, rmse); ("MAE"%string, mae)] /\
    r2 <= 1 /\ 0 <= mae <= rmse.
Proof.
  exact (@evaluate_regression_bounds [2; 4; 6; 8] [2; 4; 6; 9] eq_refl
           non_constant_2468).
Defined.

Lemma fit_simple_translation_witness :
  exists k i,
    fit_simple (Arr1 [1; 2; 3; 4]) [2; 4; 6; 8] LinearRegressor_init
    = (Ok tt, {| coefficients := Some (CScalar k); intercept := Some i |}) /\
    fit_simple (Arr1 [1; 2; 3; 4]) (add_scalar 3 [2; 4; 6; 8])
               LinearRegressor_init
    = (Ok tt, {| coefficients := Some (CScalar k);
                 intercept := Some (i + 3) |}) /\
    fit_simple (Arr1 (add_scalar 3 [1; 2; 3; 4])) [2; 4; 6; 8]
               LinearRegressor_init
    = (Ok tt, {| coefficients := Some (CScalar k);
                 intercept := Some (i - k * 3) |}).
Proof.
  exact (@fit_simple_translation [1; 2; 3; 4] [2; 4; 6; 8] 3
           LinearRegressor_init eq_refl Var_1234).
Defined.

Lemma evaluate_regression_mean_prediction_witness :
  exists rmse mae,
    evaluate_regression [2; 4; 6; 8] [Spec.mean [2; 4; 6; 8]]
    = Ok [("R2"%string, 0); ("RMSE"%string, rmse); ("MAE"%string, mae)].
Proof.
  exact (@evaluate_regression_mean_prediction [2; 4; 6; 8] non_constant_2468).
Defined.

Lemma fit_multiple_residuals_orthogonal_witness :
  exists model p,
    fit_multiple (Arr2 (Matrix 2 [[0; 0]; [1; 0]; [0; 1]; [1; 1]]))
                 [1; 3; -2; 1] LinearRegressor_init
    = (Ok tt, model) /\
    predict model (Arr2 (Matrix 2 [[0; 0]; [1; 0]; [0; 1]; [1; 1]]))
    = Ok (Arr1 p) /\
    forall c,
      In c (rows (transpose
                    (c_ones (Arr2 (Matrix 2 [[0; 0]; [1; 0]; [0; 1]; [1; 1]]))))) ->
      dot c (map (fun q => fst q - snd q) (combine [1; 3; -2; 1] p)) = 0.
Proof.
  apply (@fit_multiple_residuals_orthogonal
           (Matrix 2 [[0; 0]; [1; 0]; [0; 1]; [1; 1]]) [1; 3; -2; 1]
           (Matrix 3 [[4; 2; 2]; [2; 2; 1]; [2; 1; 2]])
           (Matrix 3 [[3/4; -1/2; -1/2]; [-1/2; 1; 0]; [-1/2; 0; 1]])
           LinearRegressor_init).
  - repeat constructor.
  - reflexivity.
  - exact square_design_gram.
  - exact square_design_inverse.
Defined.

Lemma fit_multiple_recovers_exact_witness :
  fit_multiple (Arr2 (Matrix 2 [[0; 0]; [1; 0]; [0; 1]; [1; 1]]))
    (map (fun g => dot g [1; 2; -3])
         (rows (c_ones (Arr2 (Matrix 2 [[0; 0]; [1; 0]; [0; 1]; [1; 1]])))))
    LinearRegressor_init
  = (Ok tt, {| coefficients := Some (CArray [2; -3]); intercept := Some 1 |}).
Proof.
  apply (@fit_multiple_recovers_exact
           (Matrix 2 [[0; 0]; [1; 0]; [0; 1]; [1; 1]]) [1; 2; -3]
           (Matrix 3 [[4; 2; 2]; [2; 2; 1]; [2; 1; 2]])
           (Matrix 3 [[3/4; -1/2; -1/2]; [-1/2; 1; 0]; [-1/2; 0; 1]])
           LinearRegressor_init).
  - repeat constructor.
  - reflexivity.
  - exact square_design_gram.
  - exact square_design_inverse.
Defined.

Lemma fit_multiple_zero_feature_witness :
  fit_multiple (Arr2 (Matrix 2 [[1; 0]; [2; 0]; [3; 0]])) [1; 2; 4]
               LinearRegressor_init
  = (Raise singular_matrix, LinearRegressor_init).
Proof.
  apply (@fit_multiple_zero_feature
           (Matrix 2 [[1; 0]; [2; 0]; [3; 0]]) 1).
  - repeat constructor.
  - cbn. lia.
  - cbn [rows In]. intros r [<-|[<-|[<-|[]]]]; reflexivity.
Defined.

Lemma predict_after_fit_multiple_witness :
  exists model,
    fit_multiple (Arr2 (Matrix 2 [[0; 0]; [1; 0]; [0; 1]; [1; 1]]))
                 [1; 3; -2; 1] LinearRegressor_init
    = (Ok tt, model) /\
    exists p, predict model (Arr2 (Matrix 2 [[1; 2]; [3; 4]])) = Ok (Arr1 p)
              /\ length p = 2%nat.
Proof.
  destruct (@fit_multiple_solves
              (Matrix 2 [[0; 0]; [1; 0]; [0; 1]; [1; 1]]) [1; 3; -2; 1]
              (Matrix 3 [[4; 2; 2]; [2; 2; 1]; [2; 1; 2]])
              (Matrix 3 [[3/4; -1/2; -1/2]; [-1/2; 1; 0]; [-1/2; 0; 1]])
              LinearRegressor_init eq_refl square_design_gram
              square_design_inverse) as (_ & Hfit).
  eexists. split; [exact Hfit|].
  destruct (predict_after_fit_multiple _ _ _ Hfit) as (_ & Hp).
  exact (Hp (Matrix 2 [[1; 2]; [3; 4]]) eq_refl).
Defined.

End MoreOnReals.
